(** * dns-notes: the Vuex store, the bootstrap loader and the route guard

    A shallow embedding of
    - [src/app/src/store.js] (the notes store: state, getter, mutations,
      actions),
    - [src/unnamed/part_000] (the lazily loaded [loadAllNotes] action),
    - [src/unnamed/part_001] (the router with its [AuthChecker] guard),
    and the properties the specification states about them.

    Conventions.  A JavaScript object used as a dictionary ([state.notes],
    keyed by note id) is a [gmap string Note]: the specification calls the
    collection a mapping whose insertion order is irrelevant.  The map
    holds the own keys of the object; the one key that an assignment does
    not create, "__proto__", is treated where [addNewNote] assigns.
    Asynchronous actions are programs
    over the effects they perform (remote call, [confirm], [alert],
    [commit], [dispatch]); an interpreter runs them against a scripted
    server and a scripted user and keeps the trace of what happened. *)

From stdpp Require Import gmap strings list fin_maps pretty sorting.

Open Scope Z_scope.

(** ** Data model *)

(** A note, with the fields of the records in [state.notes]. *)
Record Note := {
  id : string;
  provider : string;
  domain : string;
  type : string;
  subdomain : string;
  value : string;
  note : string;
  time : Z;
}.

(** The [notes] value of a server response, or the payload of [setNotes].
    The store holds an object keyed by id; [res.notes.length] in
    [loadDates] reads it as an array.  Both shapes are kept. *)
Inductive JsNotes :=
| NotesArray (l : list Note)
| NotesObject (m : gmap string Note).

(** The own enumerable properties that [{...notes}] copies: the entries of
    an object, or index/element pairs of an array. *)
Definition own_properties (ns : JsNotes) : gmap string Note :=
  match ns with
  | NotesArray l => list_to_map (imap (fun i n => (pretty i, n)) l)
  | NotesObject m => m
  end.

(** [notes.length === 0]: only an empty array has a [length] equal to 0;
    on a dictionary of notes [length] is not the number 0. *)
Definition length_is_zero (ns : JsNotes) : bool :=
  match ns with
  | NotesArray [] => true
  | _ => false
  end.

(** The store's state.  [loading] and [notes] are declared in
    [store.js]; [org] is read by [loadAllNotes] and by the route guard,
    [lastSync] is written by [loadAllNotes]. *)
Record State := {
  loading : bool;
  notes : gmap string Note;
  org : option string;
  lastSync : option Z;
}.

(** Assignments to one field of the state ([state.f = v]). *)
Definition with_loading (state : State) (v : bool) : State :=
  {| loading := v; notes := notes state;
     org := org state; lastSync := lastSync state |}.

Definition with_notes (state : State) (v : gmap string Note) : State :=
  {| loading := loading state; notes := v;
     org := org state; lastSync := lastSync state |}.

Definition with_lastSync (state : State) (v : option Z) : State :=
  {| loading := loading state; notes := notes state;
     org := org state; lastSync := v |}.

(** Does [o[key] = v] go to the [__proto__] setter instead of writing an
    own key?  It does for the key "__proto__", unless the object has an
    own key of that name (which a spread of a parsed payload can give
    it). *)
Definition reaches_proto_setter (o : gmap string Note) (key : string)
    : bool :=
  bool_decide (key = "__proto__") && negb (bool_decide (is_Some (o !! key))).

(** ** Mutations *)

Module mutations.

(** [loading: (state, loadingState) => (state.loading = loadingState)] *)
Definition loading (state : State) (loadingState : bool) : State :=
  with_loading state loadingState.

(** [addNewNote: (state, note) => (state.notes[note.id] = note)].  The
    assignment writes the own key [note.id], with one exception: for the
    id "__proto__" on an object that has no own key of that name it
    reaches the [__proto__] setter of [Object.prototype], which replaces
    the prototype of the object and adds no key.  The state holds the own
    keys of the object; the store reads nothing through its prototype. *)
Definition addNewNote (state : State) (note : Note) : State :=
  if reaches_proto_setter (notes state) (id note) then state
  else with_notes state (<[id note := note]> (notes state)).

(** [deleteNote: (state, noteID) => delete state.notes[noteID]] *)
Definition deleteNote (state : State) (noteID : string) : State :=
  with_notes state (delete noteID (notes state)).

(** [setNotes: (state, notes) => (state.notes = { ...state.notes, ...notes })]
    The later spread wins on a shared key; [∪] on maps prefers its left
    operand. *)
Definition setNotes (state : State) (ns : JsNotes) : State :=
  with_notes state (own_properties ns ∪ notes state).

(** Modelled from the spec: the [setLastSync] mutation that
    [loadAllNotes] commits; the store module that registers it is not
    among the sources.  It stores the checkpoint [lastSyncTime]. *)
Definition setLastSync (state : State) (t : Z) : State :=
  with_lastSync state (Some t).

End mutations.

(** A [commit(name, payload)] call, for the mutations that the actions
    commit (none of them commits the generic [setter]). *)
Inductive Commit :=
| CLoading (loadingState : bool)
| CAddNewNote (note : Note)
| CDeleteNote (noteID : string)
| CSetNotes (ns : JsNotes)
| CSetLastSync (t : Z).

(** [store.commit]: look the mutation up by name and run it. *)
Definition commit (state : State) (c : Commit) : State :=
  match c with
  | CLoading b => mutations.loading state b
  | CAddNewNote n => mutations.addNewNote state n
  | CDeleteNote k => mutations.deleteNote state k
  | CSetNotes ns => mutations.setNotes state ns
  | CSetLastSync t => mutations.setLastSync state t
  end.

(** The events of the replay stream for which the store has an applier:
    [Add] is the [addNewNote] mutation, [Delete] the [deleteNote]
    mutation. *)
Inductive NoteEvent :=
| Add (note : Note)
| Delete (noteID : string).

Definition commit_of_event (e : NoteEvent) : Commit :=
  match e with
  | Add n => CAddNewNote n
  | Delete k => CDeleteNote k
  end.

(** Apply one event, and fold an ordered list of events, oldest first. *)
Definition apply (C : State) (e : NoteEvent) : State :=
  commit C (commit_of_event e).

Definition apply_all (C : State) (E : list NoteEvent) : State :=
  foldl apply C E.

(** What one event does to the entry under key [k]: under "__proto__" an
    Add replaces an entry and creates none. *)
Definition apply_at (k : string) (entry : option Note) (e : NoteEvent)
    : option Note :=
  match e with
  | Add n =>
      if decide (id n = k) then
        if decide (k = "__proto__")
        then match entry with Some _ => Some n | None => None end
        else Some n
      else entry
  | Delete j => if decide (j = k) then None else entry
  end.

(** ** The [notes] getter *)

(** [(a, b) => b.time - a.time] *)
Definition by_time_desc (a b : Note) : Z := time b - time a.

(** [a] may stand before [b] in the view: [a] is not older than [b]. *)
Definition newest_first (a b : Note) : Prop := time b ≤ time a.

(** [Array.prototype.sort(compare)]: a stable sort; [a] stays before [b]
    unless [compare(a, b) > 0].  Every stable sort returns the same array
    for a comparator like [by_time_desc]; insertion sort is the one
    written here. *)
Fixpoint sort_insert {A} (compare : A → A → Z) (x : A) (l : list A) : list A :=
  match l with
  | [] => [x]
  | y :: l' =>
      if decide (compare x y ≤ 0) then x :: l
      else y :: sort_insert compare x l'
  end.

Definition Array_sort {A} (compare : A → A → Z) (l : list A) : list A :=
  foldr (sort_insert compare) [] l.

(** [Object.values(o)]: the values of the own keys.  The host lists them
    with the keys that are array indices first, in ascending order, and
    the others in the order of their insertion; the map does not record
    that order and lists them in its own.  What is stated of this list
    holds of every enumeration of the same values. *)
Definition Object_values (o : gmap string Note) : list Note :=
  (map_to_list o).*2.

Module getters.

(** [notes: (state) => Object.values(state.notes).sort((a, b) => b.time - a.time)] *)
Definition notes (state : State) : list Note :=
  Array_sort by_time_desc (Object_values (notes state)).

End getters.

(** ** Effects of the actions *)

(** What an action returns: [undefined], or a boolean. *)
Inductive JsVal :=
| JsUndefined
| JsBool (b : bool).

Definition falsy (v : JsVal) : bool :=
  match v with
  | JsUndefined => true
  | JsBool b => negb b
  end.

Inductive Method := GET | POST.

Record Request := { method : Method; url : string }.

(** The parsed JSON body of a reply, with the fields the actions read. *)
Module Res.
Record t := {
  ok : bool;
  error : string;
  notes : JsNotes;
  time : Z;
}.
End Res.

(** The awaited remote call either resolves with a body or rejects (the
    auth header lookup or the transport threw). *)
Inductive Reply :=
| Resolved (res : Res.t)
| Rejected (message : string).

(** The actions that can be dispatched, with their payload. *)
Inductive Action :=
| LoadDates (after : option Z)
| NewNote (note : Note)
| DeleteNote (noteID : string)
| LoadAllNotes.

(** The body of an async action, as the tree of the effects it performs. *)
Inductive Prog :=
| Return (v : JsVal)
| Throw (message : string)
| RunJSON (rq : Request) (k : Res.t → Prog)
| Confirm (message : string) (k : bool → Prog)
| Alert (message : string) (k : Prog)
| DoCommit (c : Commit) (k : Prog)
| Dispatch (a : Action) (k : JsVal → Prog)
| TryCatch (body : Prog) (handler : string → Prog).

Definition newline : string := String (Ascii.ascii_of_nat 10) EmptyString.

(** [`Error: \n${error}\n\nTry again?`] *)
Definition try_again (error : string) : string :=
  "Error: " +:+ newline +:+ error +:+ newline +:+ newline +:+ "Try again?".

(** Truthiness of the [after] argument: [undefined] and [0] are falsy. *)
Definition truthy (after : option Z) : bool :=
  match after with
  | None => false
  | Some n => negb (n =? 0)
  end.

(** [`${x}`] for an optional number or string.  A number is printed with
    its decimal digits, as the host prints an integer of magnitude below
    10^21. *)
Definition show_number (x : option Z) : string :=
  match x with
  | None => "undefined"
  | Some n => pretty n
  end.

Definition show_string (x : option string) : string :=
  match x with
  | None => "undefined"
  | Some s => s
  end.

(** The request of [loadDates]:
    [after ? `/appointment/available/date?after=${after}` : "/appointment/available/date"]. *)
Definition loadDates_request (after : option Z) : Request :=
  {| method := GET;
     url := if truthy after
            then "/appointment/available/date?after=" +:+ show_number after
            else "/appointment/available/date" |}.

(** The request of [loadAllNotes]: [`/note/all/${state.org}`]. *)
Definition loadAllNotes_request (state : State) : Request :=
  {| method := GET; url := "/note/all/" +:+ show_string (org state) |}.

(** Modelled from the spec: [errorHandlingWrapper] of [../utils.js], which
    is not among the sources.  It is the RetryGate of the specification:
    when the wrapped operation fails the error is shown to the user, who
    chooses between retry (the same operation is dispatched again with
    the same arguments) and abandon (a distinguished result, not an
    exception).  The abandoned result is [false], as in the retry written
    out in [loadDates]. *)
Definition errorHandlingWrapper (self : Action) (fn : Prog) : Prog :=
  TryCatch fn (fun message =>
    Confirm (try_again message) (fun again =>
      if again then Dispatch self Return else Return (JsBool false))).

Module actions.

(** [loadDates({ commit, dispatch }, after)], store.js lines 212-233. *)
Definition loadDates (after : option Z) : Prog :=
  RunJSON (loadDates_request after)
    (fun res =>
       if negb (Res.ok res) then
         Confirm (try_again (Res.error res)) (fun again =>
           if again then Dispatch (LoadDates after) Return
           else Return (JsBool false))
       else if length_is_zero (Res.notes res) then
         Alert "All notes loaded!" (Return JsUndefined)
       else
         DoCommit (CSetNotes (Res.notes res)) (Return JsUndefined)).

(** [newNote({ commit, dispatch }, note)], store.js lines 235-267.  The
    function returns on its first statement; the statements after it
    (the POST to /note/new and its retry) never run. *)
Definition newNote (note : Note) : Prog :=
  DoCommit (CAddNewNote note) (Return JsUndefined).

(** [deleteNote({ commit, dispatch }, noteID)], store.js lines 269-299.
    As in [newNote], only the first statement runs. *)
Definition deleteNote (noteID : string) : Prog :=
  DoCommit (CDeleteNote noteID) (Return JsUndefined).

(** [loadAllNotes({ state, commit })], part_000 lines 16-31, before it
    is wrapped. *)
Definition loadAllNotes (state : State) : Prog :=
  RunJSON (loadAllNotes_request state)
    (fun res =>
       if negb (Res.ok res) then Throw (Res.error res)
       else
         DoCommit (CSetNotes (Res.notes res))
           (DoCommit (CSetLastSync (Res.time res)) (Return JsUndefined))).

End actions.

(** The store's table of actions; an action receives the state as it is
    when it is dispatched. *)
Definition action_body (a : Action) (state : State) : Prog :=
  match a with
  | LoadDates after => actions.loadDates after
  | NewNote note => actions.newNote note
  | DeleteNote noteID => actions.deleteNote noteID
  | LoadAllNotes => errorHandlingWrapper LoadAllNotes (actions.loadAllNotes state)
  end.

(** ** Running an action *)

(** What can be observed of a run. *)
Inductive Event :=
| EvDispatch (a : Action)
| EvRequest (rq : Request) (reply : Reply)
| EvConfirm (message : string) (answer : bool)
| EvAlert (message : string)
| EvCommit (c : Commit).

(** The store together with its environment: the replies the server will
    give, the answers the user will give to [confirm], and the trace of
    the events so far, oldest first. *)
Record World := {
  store : State;
  server : list Reply;
  user : list bool;
  trace : list Event;
}.

Definition log (e : Event) (w : World) : World :=
  {| store := store w; server := server w; user := user w;
     trace := trace w ++ [e] |}.

(** How a run ends: the promise resolves, it rejects, or the run is still
    waiting (for a reply or an answer that the script does not hold, or
    for a dispatch beyond the depth allowed). *)
Inductive Outcome :=
| Returned (v : JsVal)
| Thrown (message : string)
| Waiting.

Fixpoint run (dispatch : Action → World → Outcome * World)
    (p : Prog) (w : World) {struct p} : Outcome * World :=
  match p with
  | Return v => (Returned v, w)
  | Throw message => (Thrown message, w)
  | RunJSON rq k =>
      match server w with
      | [] => (Waiting, w)
      | reply :: rest =>
          let w' := log (EvRequest rq reply)
            {| store := store w; server := rest; user := user w;
               trace := trace w |} in
          match reply with
          | Resolved res => run dispatch (k res) w'
          | Rejected message => (Thrown message, w')
          end
      end
  | Confirm message k =>
      match user w with
      | [] => (Waiting, w)
      | answer :: rest =>
          run dispatch (k answer)
            (log (EvConfirm message answer)
               {| store := store w; server := server w; user := rest;
                  trace := trace w |})
      end
  | Alert message k => run dispatch k (log (EvAlert message) w)
  | DoCommit c k =>
      run dispatch k
        (log (EvCommit c)
           {| store := commit (store w) c; server := server w;
              user := user w; trace := trace w |})
  | Dispatch a k =>
      match dispatch a w with
      | (Returned v, w') => run dispatch (k v) w'
      | other => other
      end
  | TryCatch body handler =>
      match run dispatch body w with
      | (Thrown message, w') => run dispatch (handler message) w'
      | other => other
      end
  end.

(** [store.dispatch(action, payload)].  [depth] bounds how many dispatches
    may be nested; at depth 0 the dispatch stays pending. *)
Fixpoint dispatch (depth : nat) (a : Action) (w : World) : Outcome * World :=
  match depth with
  | O => (Waiting, w)
  | S depth' =>
      run (dispatch depth') (action_body a (store w)) (log (EvDispatch a) w)
  end.

(** The commits among the events of a trace, in order. *)
Definition commits_of (tr : list Event) : list Commit :=
  omap (fun e => match e with EvCommit c => Some c | _ => None end) tr.

(** ** The router and its guard *)

(** [AuthType]: the frozen enum of authentication requirements. *)
Module AuthType.
Definition public : Z := 1.
Definition public_only : Z := 2.
Definition private : Z := 3.
End AuthType.

(** A record of the route table: [path], [name] and
    [meta.Auth_requirements]. *)
Module RouteRecord.
Record t := {
  path : string;
  name : string;
  Auth_requirements : Z;
}.
End RouteRecord.

(** The normalized location [to] handed to a navigation guard. *)
Module Route.
Record t (Query : Type) := {
  path : string;
  name : option string;
  query : Query;
  matched : list RouteRecord.t;
}.
Arguments path {Query}.
Arguments name {Query}.
Arguments query {Query}.
Arguments matched {Query}.
End Route.

(** The location that the guard passes to [next]: [{ name }], with
    [query: { redirect }] when set. *)
Record RedirectQuery := { redirect : string }.

Module RouteTo.
Record t := {
  name : string;
  query : option RedirectQuery;
}.
End RouteTo.

(** The argument of the one call to [next]: nothing, or a location. *)
Inductive Next :=
| NextContinue
| NextRoute (routeTo : RouteTo.t).

(** The result of [requiredAuth]. *)
Module Required.
Record t := {
  public : bool;
  public_only : bool;
  private : bool;
}.
End Required.

(** The route table of the router. *)
Definition routes : list RouteRecord.t :=
  map (λ r, {| RouteRecord.path := r.1.1; RouteRecord.name := r.1.2;
               RouteRecord.Auth_requirements := r.2 |})
    [ ("/", "home", AuthType.private);
      ("/create", "create", AuthType.private);
      ("/view", "view", AuthType.private);
      ("/edit/:noteID", "edit", AuthType.private);
      ("/new", "new-user", AuthType.private);
      ("/settings", "settings", AuthType.private);
      ("/invite", "invite-users", AuthType.private);
      ("/login", "login", AuthType.public_only);
      ("/:pathMatch(.*)*", "404", AuthType.public) ].

(** The records of the table with a given name: what a navigation by
    name matches in this flat table. *)
Definition matched_by_name (n : string) : list RouteRecord.t :=
  filter (λ r, RouteRecord.name r = n) routes.

(** Truthiness of [store.state.org]: [undefined] and the empty string are
    falsy. *)
Definition truthy_org (o : option string) : bool :=
  match o with
  | None => false
  | Some s => negb (String.eqb s "")
  end.

(** Truthiness of [auth.currentUser]: [null] or a user object. *)
Definition logged_in {User} (currentUser : option User) : bool :=
  match currentUser with
  | Some _ => true
  | None => false
  end.

Definition name_is {Query} (to : Route.t Query) (n : string) : bool :=
  match Route.name to with
  | Some m => String.eqb m n
  | None => false
  end.

Section Guard.

(** The query object of a location and the signed-in user of the auth
    provider are opaque to the guard; [JSON.stringify({ path, query })]
    is the host's. *)
Context {Query User : Type}.
Variable JSON_stringify : string → Query → string.

(** [requiredAuth(route)]; reading [meta] of a missing [matched[0]]
    throws, which is [None]. *)
Definition requiredAuth (route : Route.t Query) : option Required.t :=
  match Route.matched route with
  | [] => None
  | first :: _ =>
      let Auth_requirements := RouteRecord.Auth_requirements first in
      Some {| Required.public := Auth_requirements =? AuthType.public;
              Required.public_only := Auth_requirements =? AuthType.public_only;
              Required.private := Auth_requirements =? AuthType.private |}
  end.

(** [AuthChecker(to, from, next)]: the argument with which [next] is
    called, for the current user of [auth] and the state of the store. *)
Definition AuthChecker (currentUser : option User) (state : State)
    (to : Route.t Query) : option Next :=
  match requiredAuth to with
  | None => None
  | Some AuthType_required_is =>
      Some
        (if Required.private AuthType_required_is
            && negb (logged_in currentUser)
         then
           NextRoute
             {| RouteTo.name := "login";
                RouteTo.query :=
                  if negb (String.eqb (Route.path to) "/")
                  then Some {| redirect :=
                                 JSON_stringify (Route.path to) (Route.query to) |}
                  else None |}
         else if Required.public_only AuthType_required_is
                 && logged_in currentUser
         then NextRoute {| RouteTo.name := "home"; RouteTo.query := None |}
         else if logged_in currentUser && name_is to "new-user"
                 && truthy_org (org state)
         then NextRoute {| RouteTo.name := "home"; RouteTo.query := None |}
         else if logged_in currentUser
                 && negb (name_is to "new-user")
                 && negb (truthy_org (org state))
         then NextRoute {| RouteTo.name := "new-user"; RouteTo.query := None |}
         else NextContinue)
  end.

End Guard.

(** Does a call to [next] send the navigation to the login route? *)
Definition to_login (n : Next) : bool :=
  match n with
  | NextRoute r => String.eqb (RouteTo.name r) "login"
  | NextContinue => false
  end.

(** ** The state the store starts from *)

(** The two notes that [state()] of store.js holds as UI testing data. *)
Definition note_covid : Note :=
  {| id := "sldgjldskjglsd"; provider := "cloudflare";
     domain := "covid.gov.sg"; type := "CNAME";
     subdomain := "_lnslgknlsfIOH_lsndlgdsl"; value := "";
     note := "Domain verification for Emails"; time := 1643184535 |}.

Definition note_redeem : Note :=
  {| id := "rwihfnldbxf"; provider := "route53";
     domain := "redeem.gov.sg"; type := "CNAME";
     subdomain := "_23ikef_lsndlgdsl"; value := "";
     note := "Domain verification for Emails"; time := 1643184537 |}.

(** [state()] of store.js, for a user of organization [o] who has not
    synchronized yet. *)
Definition initial_state (o : option string) : State :=
  {| loading := false;
     notes := <["sldgjldskjglsd" := note_covid]>
                (<["rwihfnldbxf" := note_redeem]> ∅);
     org := o; lastSync := None |}.

(** A note whose id is "__proto__". *)
Definition note_proto : Note :=
  {| id := "__proto__"; provider := "cloudflare"; domain := "x.gov";
     type := "TXT"; subdomain := "_dmarc"; value := "v=DMARC1";
     note := "Mail policy"; time := 1643190200 |}.

(** A bootstrap in which the server holds one note, which is not one of
    the two that the client starts with. *)
Definition note_served : Note :=
  {| id := "n1"; provider := "cloudflare"; domain := "x.gov";
     type := "A"; subdomain := "www"; value := "1.2.3.4";
     note := "Landing page"; time := 1643190000 |}.

Definition bootstrap_reply : Res.t :=
  {| Res.ok := true; Res.error := "";
     Res.notes := NotesObject (<["n1" := note_served]> ∅);
     Res.time := 1643190100 |}.

Definition bootstrap_world : World :=
  {| store := initial_state (Some "enkel");
     server := [Resolved bootstrap_reply]; user := []; trace := [] |}.

(** The world once a reply was refused by the server and the user has
    answered the prompt. *)
Definition after_prompt (a : Action) (rq : Request) (res : Res.t)
    (answer : bool) (rest : list Reply) (answers : list bool) (w : World)
    : World :=
  {| store := store w; server := rest; user := answers;
     trace := trace w ++ [EvDispatch a; EvRequest rq (Resolved res);
                          EvConfirm (try_again (Res.error res)) answer] |}.

(** [w'] is reached from [w] by a run: the trace has grown by some events,
    and the store is the store of [w] after the commits among them. *)
Definition extends (w w' : World) : Prop :=
  ∃ tr, trace w' = trace w ++ tr
        ∧ store w' = foldl commit (store w) (commits_of tr).

(** The prompt of the retry protocol in the world [w] reached when the
    operation has failed with [message]: the user answers, and the
    operation is run [again] or [false] is returned. *)
Definition prompt_retry (again : World → Outcome * World) (message : string)
    (w : World) : Outcome * World :=
  match user w with
  | [] => (Waiting, w)
  | answer :: answers =>
      let w' := {| store := store w; server := server w; user := answers;
                   trace := trace w ++ [EvConfirm (try_again message) answer] |} in
      if answer then again w' else (Returned (JsBool false), w')
  end.

Definition is_commit (e : Event) : bool :=
  match e with
  | EvCommit _ => true
  | _ => false
  end.

(** The events of a bootstrap, retries included: no commit at all, or no
    commit until at the very end the notes and then the checkpoint of one
    reply are committed. *)
Definition bootstrap_shape (tr : list Event) : Prop :=
  ∃ pre, forallb (λ e, negb (is_commit e)) pre = true
    ∧ (tr = pre
       ∨ ∃ res, tr = pre ++ [EvCommit (CSetNotes (Res.notes res));
                             EvCommit (CSetLastSync (Res.time res))]).

(** [w'] is reached from [w] by events in which the notes are committed
    before the checkpoint: the commits among them are none, or those of
    the notes and then of the checkpoint of one reply. *)
Definition ordered_bootstrap (w w' : World) : Prop :=
  ∃ tr, trace w' = trace w ++ tr
    ∧ store w' = foldl commit (store w) (commits_of tr)
    ∧ (commits_of tr = []
       ∨ ∃ res, commits_of tr = [CSetNotes (Res.notes res);
                                 CSetLastSync (Res.time res)])
    ∧ ∀ i t, tr !! i = Some (EvCommit (CSetLastSync t)) →
        ∃ j ns, (j < i)%nat ∧ tr !! j = Some (EvCommit (CSetNotes ns)).

(** ** Notions used to state further properties of the store *)

(** The key that an event names, and the entry it leaves under it. *)
Definition event_id (e : NoteEvent) : string :=
  match e with
  | Add n => id n
  | Delete k => k
  end.

Definition entry_of (e : NoteEvent) : option Note :=
  match e with
  | Add n => Some n
  | Delete _ => None
  end.

(** The location that a navigation by name resolves to in the flat route
    table: the path of the record of that name, and the record as the
    only match. *)
Definition target_route {Query} (n : string) (q : Query) : Route.t Query :=
  {| Route.path :=
       match matched_by_name n with
       | r :: _ => RouteRecord.path r
       | [] => n
       end;
     Route.name := Some n;
     Route.query := q;
     Route.matched := matched_by_name n |}.

(** ** The server: creating an organization (src/server/src/routes/org.ts) *)

Module OrgRoutes.

(** A document of the "orgs" collection. *)
Module Org.
Record t := {
  ID : string;
  name : string;
  createdBy : string;
  time : Z;
}.
End Org.

(** The verified token of the caller: [req.authenticatedUser] with its
    [org] claim, which is [undefined] for a user without organization. *)
Module Token.
Record t := {
  uid : string;
  email : string;
  org : option string;
}.
End Token.

(** [req.body]. *)
Module Body.
Record t := {
  org : string;
  name : string;
}.
End Body.

(** The claims object handed to [claims.setClaims]. *)
Module Claims.
Record t := {
  org : string;
  admin : bool;
}.
End Claims.

(** What the handler works on: the documents of "orgs" in the order in
    which they were added, and the calls made to [claims.setClaims] (the
    helper itself is not among the sources; a call is recorded with its
    claims and the uid it is applied to). *)
Record Backend := {
  orgs : list Org.t;
  setClaims_calls : list (Claims.t * string);
}.

(** The response: the authorization middleware refuses, or the handler
    answers with a status and, for 400, an error. *)
Inductive Response :=
| Refused
| Status (code : Z) (error : option string).

(** [fs.collection("orgs").where("ID", "==", id).get()]: the snapshot is
    empty when no document has that ID. *)
Definition snapshot_empty (db : Backend) (id : string) : bool :=
  negb (existsb (λ o, String.eqb (Org.ID o) id) (orgs db)).

(** [POST /org/create], one request handled from start to end:
    [authzMW((token) => token.org === undefined)], then the handler.
    [now] is the value of [unixseconds()]. *)
Definition create (now : Z) (token : Token.t) (body : Body.t)
    (db : Backend) : Response * Backend :=
  match Token.org token with
  | Some _ => (Refused, db)
  | None =>
      if negb (snapshot_empty db (Body.org body))
      then (Status 400 (Some "Org ID taken"), db)
      else
        (Status 200 None,
         {| orgs := orgs db
                    ++ [{| Org.ID := Body.org body;
                           Org.name := Body.name body;
                           Org.createdBy := Token.email token;
                           Org.time := now |}];
            setClaims_calls :=
              setClaims_calls db
              ++ [({| Claims.org := Body.org body; Claims.admin := true |},
                   Token.uid token)] |})
  end.

(** A request with the time at which it is handled. *)
Record Request := {
  now : Z;
  token : Token.t;
  body : Body.t;
}.

(** Requests handled one after the other. *)
Definition serve (db : Backend) (rqs : list Request) : Backend :=
  foldl (λ db rq, (create (now rq) (token rq) (body rq) db).2) db rqs.

End OrgRoutes.

(** ** The appointments store (src/app/src/store.js, lines 1-147) *)

(** The url of [loadDates], which the two stores build alike. *)
Definition loadDates_url (after : option Z) : string :=
  url (loadDates_request after).

Module Appointments.

(** A JSON value of a request body. *)
Inductive Json :=
| JNumber (n : Z)
| JString (s : string).

(** The fields of the state that the mutations and actions touch.
    [state()] declares [loading] (and a list of notes that nothing
    reads); the other fields are [undefined] until the [setter] mutation
    stores them. *)
Record State := {
  loading : bool;
  datesAvailable : option (list Z);
  selectedTimeslot : option Z;
  src : option string;
  details : option (gmap string Json);
  appointmentID : option string;
}.

(** [state()]. *)
Definition initial : State :=
  {| loading := false; datesAvailable := None; selectedTimeslot := None;
     src := None; details := None; appointmentID := None |}.

(** The payload [[key, value]] of the generic [setter], for the fields
    above. *)
Inductive Assignment :=
| SetDatesAvailable (v : list Z)
| SetSelectedTimeslot (v : Z)
| SetSrc (v : string)
| SetDetails (v : gmap string Json)
| SetAppointmentID (v : string).

(** The error of [undefined.push(...)], with the message of V8. *)
Definition TypeError_push : string :=
  "Cannot read properties of undefined (reading 'push')".

Module mutations.

(** [loading: (state, loadingState) => (state.loading = loadingState)] *)
Definition loading (state : State) (loadingState : bool) : State :=
  {| Appointments.loading := loadingState;
     datesAvailable := datesAvailable state;
     selectedTimeslot := selectedTimeslot state; src := src state;
     details := details state; appointmentID := appointmentID state |}.

(** [setter: (state, payload) => (state[payload[0]] = payload[1])] *)
Definition setter (state : State) (payload : Assignment) : State :=
  match payload with
  | SetDatesAvailable v =>
      {| Appointments.loading := Appointments.loading state;
         datesAvailable := Some v;
         selectedTimeslot := selectedTimeslot state; src := src state;
         details := details state; appointmentID := appointmentID state |}
  | SetSelectedTimeslot v =>
      {| Appointments.loading := Appointments.loading state;
         datesAvailable := datesAvailable state;
         selectedTimeslot := Some v; src := src state;
         details := details state; appointmentID := appointmentID state |}
  | SetSrc v =>
      {| Appointments.loading := Appointments.loading state;
         datesAvailable := datesAvailable state;
         selectedTimeslot := selectedTimeslot state; src := Some v;
         details := details state; appointmentID := appointmentID state |}
  | SetDetails v =>
      {| Appointments.loading := Appointments.loading state;
         datesAvailable := datesAvailable state;
         selectedTimeslot := selectedTimeslot state; src := src state;
         details := Some v; appointmentID := appointmentID state |}
  | SetAppointmentID v =>
      {| Appointments.loading := Appointments.loading state;
         datesAvailable := datesAvailable state;
         selectedTimeslot := selectedTimeslot state; src := src state;
         details := details state; appointmentID := Some v |}
  end.

(** [setAvailableDates: (state, dates) => state.datesAvailable.push(...dates)]:
    the dates are appended in order; on a state without [datesAvailable]
    the call throws. *)
Definition setAvailableDates (state : State) (dates : list Z)
    : string + State :=
  match datesAvailable state with
  | None => inl TypeError_push
  | Some old =>
      inr {| Appointments.loading := Appointments.loading state;
             datesAvailable := Some (old ++ dates);
             selectedTimeslot := selectedTimeslot state; src := src state;
             details := details state; appointmentID := appointmentID state |}
  end.

End mutations.

Inductive Commit :=
| CLoading (loadingState : bool)
| CSetter (payload : Assignment)
| CSetAvailableDates (dates : list Z).

(** [store.commit]; an error thrown by the mutation is thrown to the
    caller. *)
Definition commit (state : State) (c : Commit) : string + State :=
  match c with
  | CLoading b => inr (mutations.loading state b)
  | CSetter payload => inr (mutations.setter state payload)
  | CSetAvailableDates dates => mutations.setAvailableDates state dates
  end.

(** A request: method, url and, for a POST, the JSON body. *)
Record Request := {
  method : Method;
  url : string;
  data : option (gmap string Json);
}.

(** The parsed body of a reply, with the fields the actions read. *)
Module Res.
Record t := {
  ok : bool;
  error : string;
  timeslots : list Z;
  appointmentID : string;
}.
End Res.

Inductive Reply :=
| Resolved (res : Res.t)
| Rejected (message : string).

Inductive Action :=
| LoadDates (after : option Z)
| Book
| Reschedule
| Cancel (appointmentID : string).

(** The body of an action.  [ReturnDispatch a] is [return dispatch(a)]:
    the promise of the dispatch is returned without being awaited, so
    that a rejection of it is not caught by a [try] around the [return]. *)
Inductive Prog :=
| Return (v : JsVal)
| RunJSON (rq : Request) (k : Res.t → Prog)
| Confirm (message : string) (k : bool → Prog)
| Alert (message : string) (k : Prog)
| ConsoleError (message : string) (k : Prog)
| DoCommit (c : Commit) (k : Prog)
| ReturnDispatch (a : Action)
| TryCatch (body : Prog) (handler : string → Prog).

(** [`${x}`] for an optional string. *)
Definition show (x : option string) : string :=
  match x with
  | None => "undefined"
  | Some s => s
  end.

(** [{ time: state.selectedTimeslot, src: state.src, ...state.details }]
    as it is serialized: a property that is [undefined] is left out, and
    a property of [details] replaces [time] or [src] of the same name. *)
Definition book_data (state : State) : gmap string Json :=
  default ∅ (details state)
  ∪ from_option (λ t, {[ "time" := JNumber t ]}) ∅ (selectedTimeslot state)
  ∪ from_option (λ s, {[ "src" := JString s ]}) ∅ (src state).

(** [{ time: state.selectedTimeslot }] *)
Definition reschedule_data (state : State) : gmap string Json :=
  from_option (λ t, {[ "time" := JNumber t ]}) ∅ (selectedTimeslot state).

(** The prompt-and-retry expression
    [confirm(`Error: \n${message}\n\nTry again?`) && dispatch(again)]. *)
Definition retry (message : string) (again : Action) : Prog :=
  Confirm (try_again message) (λ yes,
    if yes then ReturnDispatch again else Return (JsBool false)).

Module actions.

(** [loadDates({ commit, dispatch }, after)], lines 42-64. *)
Definition loadDates (after : option Z) : Prog :=
  RunJSON {| method := GET; url := loadDates_url after; data := None |}
    (λ res,
       if negb (Res.ok res) then retry (Res.error res) (LoadDates after)
       else if bool_decide (Res.timeslots res = []) then
         Alert "Sorry but there are no more available dates!"
           (Return JsUndefined)
       else DoCommit (CSetAvailableDates (Res.timeslots res))
              (Return JsUndefined)).

(** [book({ commit, dispatch, state })], lines 66-102. *)
Definition book (state : State) : Prog :=
  TryCatch
    (RunJSON {| method := POST; url := "/appointment/book";
                data := Some (book_data state) |}
       (λ res,
          if negb (Res.ok res) then retry (Res.error res) Book
          else DoCommit (CSetter (SetAppointmentID (Res.appointmentID res)))
                 (Return (JsBool true))))
    (λ message, ConsoleError message (retry message Book)).

(** [reschedule({ commit, dispatch, state })], lines 104-130. *)
Definition reschedule (state : State) : Prog :=
  TryCatch
    (RunJSON {| method := POST;
                url := "/appointment/reschedule/"
                       +:+ show (appointmentID state);
                data := Some (reschedule_data state) |}
       (λ res,
          if negb (Res.ok res) then retry (Res.error res) Reschedule
          else Return JsUndefined))
    (λ message, ConsoleError message (retry message Reschedule)).

(** [cancel({ dispatch }, appointmentID)], lines 132-145. *)
Definition cancel (appointmentID : string) : Prog :=
  RunJSON {| method := POST;
             url := "/appointment/cancel/" +:+ appointmentID;
             data := None |}
    (λ res,
       if negb (Res.ok res) then retry (Res.error res) (Cancel appointmentID)
       else Return JsUndefined).

End actions.

Definition action_body (a : Action) (state : State) : Prog :=
  match a with
  | LoadDates after => actions.loadDates after
  | Book => actions.book state
  | Reschedule => actions.reschedule state
  | Cancel appointmentID => actions.cancel appointmentID
  end.

Inductive Event :=
| EvDispatch (a : Action)
| EvRequest (rq : Request) (reply : Reply)
| EvConfirm (message : string) (answer : bool)
| EvAlert (message : string)
| EvConsoleError (message : string)
| EvCommit (c : Commit).

Record World := {
  store : State;
  server : list Reply;
  user : list bool;
  trace : list Event;
}.

Definition log (e : Event) (w : World) : World :=
  {| store := store w; server := server w; user := user w;
     trace := trace w ++ [e] |}.

(** How a piece of a body completes: with an outcome that an enclosing
    [try] sees, or with the rejection of a promise that was returned,
    which no [try] of this body sees. *)
Inductive Completion :=
| Normal (o : Outcome)
| Escapes (message : string).

Fixpoint run (dispatch : Action → World → Outcome * World)
    (p : Prog) (w : World) {struct p} : Completion * World :=
  match p with
  | Return v => (Normal (Returned v), w)
  | RunJSON rq k =>
      match server w with
      | [] => (Normal Waiting, w)
      | reply :: rest =>
          let w' := log (EvRequest rq reply)
            {| store := store w; server := rest; user := user w;
               trace := trace w |} in
          match reply with
          | Resolved res => run dispatch (k res) w'
          | Rejected message => (Normal (Thrown message), w')
          end
      end
  | Confirm message k =>
      match user w with
      | [] => (Normal Waiting, w)
      | answer :: rest =>
          run dispatch (k answer)
            (log (EvConfirm message answer)
               {| store := store w; server := server w; user := rest;
                  trace := trace w |})
      end
  | Alert message k => run dispatch k (log (EvAlert message) w)
  | ConsoleError message k => run dispatch k (log (EvConsoleError message) w)
  | DoCommit c k =>
      match commit (store w) c with
      | inl message => (Normal (Thrown message), log (EvCommit c) w)
      | inr state' =>
          run dispatch k
            (log (EvCommit c)
               {| store := state'; server := server w; user := user w;
                  trace := trace w |})
      end
  | ReturnDispatch a =>
      match dispatch a w with
      | (Thrown message, w') => (Escapes message, w')
      | (o, w') => (Normal o, w')
      end
  | TryCatch body handler =>
      match run dispatch body w with
      | (Normal (Thrown message), w') => run dispatch (handler message) w'
      | other => other
      end
  end.

(** The promise of an action: it rejects when the body threw or returned
    a promise that rejects. *)
Definition settle (c : Completion * World) : Outcome * World :=
  match c with
  | (Normal o, w) => (o, w)
  | (Escapes message, w) => (Thrown message, w)
  end.

Fixpoint dispatch (depth : nat) (a : Action) (w : World) : Outcome * World :=
  match depth with
  | O => (Waiting, w)
  | S depth' =>
      settle (run (dispatch depth') (action_body a (store w))
                (log (EvDispatch a) w))
  end.

(** The prompt in the world [w] reached when an attempt has failed with
    [message]: the user answers, and the action is dispatched [again] or
    [false] is returned. *)
Definition prompt (again : World → Outcome * World) (message : string)
    (w : World) : Outcome * World :=
  match user w with
  | [] => (Waiting, w)
  | answer :: answers =>
      let w' := {| store := store w; server := server w; user := answers;
                   trace := trace w ++ [EvConfirm (try_again message) answer] |} in
      if answer then again w' else (Returned (JsBool false), w')
  end.

(** The requests of the four actions. *)
Definition loadDates_request (after : option Z) : Request :=
  {| method := GET; url := loadDates_url after; data := None |}.


Definition reschedule_request (state : State) : Request :=
  {| method := POST;
     url := "/appointment/reschedule/" +:+ show (appointmentID state);
     data := Some (reschedule_data state) |}.

Definition cancel_request (appointmentID : string) : Request :=
  {| method := POST; url := "/appointment/cancel/" +:+ appointmentID;
     data := None |}.

(** The world after the dispatch of [a] has sent [rq] and got [reply]. *)
Definition sent (a : Action) (rq : Request) (reply : Reply)
    (rest : list Reply) (w : World) : World :=
  {| store := store w; server := rest; user := user w;
     trace := trace w ++ [EvDispatch a; EvRequest rq reply] |}.

Definition logged (e : Event) (w : World) : World :=
  {| store := store w; server := server w; user := user w;
     trace := trace w ++ [e] |}.

(** The requests among the events of a trace. *)
Definition requests_of (tr : list Event) : list Request :=
  omap (λ e, match e with EvRequest rq _ => Some rq | _ => None end) tr.

Definition commits_of (tr : list Event) : list Commit :=
  omap (λ e, match e with EvCommit c => Some c | _ => None end) tr.

End Appointments.

(** ** The API path of [newNote] and [deleteNote] *)

(** The statements of [newNote] (lines 239-266) and of [deleteNote]
    (lines 273-298) that stand after the [return] of lines 237 and 271.
    No run reaches them while those two lines stand (see [actions.newNote]
    and [actions.deleteNote] above); they are embedded here as they are
    written, with actions, requests and a dispatcher of their own. *)
Module NoteApi.

(** [dispatch("newNote")] passes no payload, so that the [note] of the
    action it starts is [undefined]. *)
Inductive Action :=
| NewNote (note : option Note)
| DeleteNote (noteID : string).

Inductive Commit :=
| CAddNewNote (note : option Note)
| CDeleteNote (noteID : string).

(** The error of [undefined.id], with the message of V8. *)
Definition TypeError_id : string :=
  "Cannot read properties of undefined (reading 'id')".

(** [store.commit]: [addNewNote] reads [note.id] and throws on a note that
    is [undefined]; the error is thrown to the caller. *)
Definition commit (state : State) (c : Commit) : string + State :=
  match c with
  | CAddNewNote None => inl TypeError_id
  | CAddNewNote (Some note) => inr (mutations.addNewNote state note)
  | CDeleteNote noteID => inr (mutations.deleteNote state noteID)
  end.

(** The body [{ note }] of a POST. *)
Record Data := { note : option Note }.

Record Request := {
  method : Method;
  url : string;
  data : option Data;
}.

(** The parsed body of a reply, with the fields the actions read. *)
Module Res.
Record t := {
  ok : bool;
  error : string;
}.
End Res.

Inductive Reply :=
| Resolved (res : Res.t)
| Rejected (message : string).

(** The body of an action.  [ReturnDispatch a] is [return dispatch(a)]:
    the promise of the dispatch is returned without being awaited, so
    that a rejection of it is not caught by the [try] around the
    [return]. *)
Inductive Prog :=
| Return (v : JsVal)
| RunJSON (rq : Request) (k : Res.t → Prog)
| Confirm (message : string) (k : bool → Prog)
| ConsoleError (message : string) (k : Prog)
| DoCommit (c : Commit) (k : Prog)
| ReturnDispatch (a : Action)
| TryCatch (body : Prog) (handler : string → Prog).

Module actions.

(** [newNote({ commit, dispatch }, note)], lines 239-266: both prompts
    are followed by [dispatch("newNote")]. *)
Definition newNote (note : option Note) : Prog :=
  TryCatch
    (RunJSON {| method := POST; url := "/note/new";
                data := Some {| NoteApi.note := note |} |}
       (λ res,
          if negb (Res.ok res) then
            Confirm (try_again (Res.error res)) (λ yes,
              if yes then ReturnDispatch (NewNote None)
              else Return (JsBool false))
          else DoCommit (CAddNewNote note) (Return JsUndefined)))
    (λ message,
       ConsoleError message
         (Confirm (try_again message) (λ yes,
            if yes then ReturnDispatch (NewNote None)
            else Return (JsBool false)))).

(** [deleteNote({ commit, dispatch }, noteID)], lines 273-298: both
    prompts are followed by [dispatch("deleteNote", noteID)]. *)
Definition deleteNote (noteID : string) : Prog :=
  TryCatch
    (RunJSON {| method := POST; url := "/note/delete/" +:+ noteID;
                data := None |}
       (λ res,
          if negb (Res.ok res) then
            Confirm (try_again (Res.error res)) (λ yes,
              if yes then ReturnDispatch (DeleteNote noteID)
              else Return (JsBool false))
          else DoCommit (CDeleteNote noteID) (Return JsUndefined)))
    (λ message,
       ConsoleError message
         (Confirm (try_again message) (λ yes,
            if yes then ReturnDispatch (DeleteNote noteID)
            else Return (JsBool false)))).

End actions.

Definition action_body (a : Action) : Prog :=
  match a with
  | NewNote note => actions.newNote note
  | DeleteNote noteID => actions.deleteNote noteID
  end.

Inductive Event :=
| EvDispatch (a : Action)
| EvRequest (rq : Request) (reply : Reply)
| EvConfirm (message : string) (answer : bool)
| EvConsoleError (message : string)
| EvCommit (c : Commit).

Record World := {
  store : State;
  server : list Reply;
  user : list bool;
  trace : list Event;
}.

Definition log (e : Event) (w : World) : World :=
  {| store := store w; server := server w; user := user w;
     trace := trace w ++ [e] |}.

(** How a piece of a body completes: with an outcome that an enclosing
    [try] sees, or with the rejection of a promise that was returned,
    which no [try] of this body sees. *)
Inductive Completion :=
| Normal (o : Outcome)
| Escapes (message : string).

Fixpoint run (dispatch : Action → World → Outcome * World)
    (p : Prog) (w : World) {struct p} : Completion * World :=
  match p with
  | Return v => (Normal (Returned v), w)
  | RunJSON rq k =>
      match server w with
      | [] => (Normal Waiting, w)
      | reply :: rest =>
          let w' := log (EvRequest rq reply)
            {| store := store w; server := rest; user := user w;
               trace := trace w |} in
          match reply with
          | Resolved res => run dispatch (k res) w'
          | Rejected message => (Normal (Thrown message), w')
          end
      end
  | Confirm message k =>
      match user w with
      | [] => (Normal Waiting, w)
      | answer :: rest =>
          run dispatch (k answer)
            (log (EvConfirm message answer)
               {| store := store w; server := server w; user := rest;
                  trace := trace w |})
      end
  | ConsoleError message k => run dispatch k (log (EvConsoleError message) w)
  | DoCommit c k =>
      match commit (store w) c with
      | inl message => (Normal (Thrown message), log (EvCommit c) w)
      | inr state' =>
          run dispatch k
            (log (EvCommit c)
               {| store := state'; server := server w; user := user w;
                  trace := trace w |})
      end
  | ReturnDispatch a =>
      match dispatch a w with
      | (Thrown message, w') => (Escapes message, w')
      | (o, w') => (Normal o, w')
      end
  | TryCatch body handler =>
      match run dispatch body w with
      | (Normal (Thrown message), w') => run dispatch (handler message) w'
      | other => other
      end
  end.

(** The promise of an action: it rejects when the body threw or returned
    a promise that rejects. *)
Definition settle (c : Completion * World) : Outcome * World :=
  match c with
  | (Normal o, w) => (o, w)
  | (Escapes message, w) => (Thrown message, w)
  end.

Fixpoint dispatch (depth : nat) (a : Action) (w : World) : Outcome * World :=
  match depth with
  | O => (Waiting, w)
  | S depth' =>
      settle (run (dispatch depth') (action_body a) (log (EvDispatch a) w))
  end.




(** The events of a call that got the failing [reply] and of the prompt
    that follows it: an error that was thrown is printed first. *)
Definition failed_call (rq : Request) (reply : Reply) (answer : bool)
    : list Event :=
  match reply with
  | Resolved res =>
      [EvRequest rq reply; EvConfirm (try_again (Res.error res)) answer]
  | Rejected message =>
      [EvRequest rq reply; EvConsoleError message;
       EvConfirm (try_again message) answer]
  end.

(** The world once the reply was taken and the user has answered. *)
Definition after_prompt (rq : Request) (reply : Reply) (answer : bool)
    (rest : list Reply) (answers : list bool) (w : World) : World :=
  {| store := store w; server := rest; user := answers;
     trace := trace w ++ failed_call rq reply answer |}.

End NoteApi.

(** ** EventApplier laws on the mutations *)

Lemma State_eq (s1 s2 : State) :
  loading s1 = loading s2 → notes s1 = notes s2 →
  org s1 = org s2 → lastSync s1 = lastSync s2 → s1 = s2.
Proof. destruct s1, s2; simpl; congruence. Qed.

Lemma reaches_proto_setter_false (o : gmap string Note) (key : string) :
  key ≠ "__proto__" ∨ is_Some (o !! key) →
  reaches_proto_setter o key = false.
Proof.
  unfold reaches_proto_setter. intros [Hk|Hk].
  - by rewrite bool_decide_eq_false_2.
  - by rewrite (bool_decide_eq_true_2 (is_Some _)), andb_false_r.
Qed.

Lemma reaches_proto_setter_true (o : gmap string Note) (key : string) :
  reaches_proto_setter o key = true ↔ key = "__proto__" ∧ o !! key = None.
Proof.
  unfold reaches_proto_setter.
  rewrite andb_true_iff, negb_true_iff, bool_decide_eq_true,
    bool_decide_eq_false, <- eq_None_not_Some. done.
Qed.

(** The other fields of the state are out of reach of [addNewNote]. *)
Lemma addNewNote_frame (C : State) (n : Note) :
  loading (mutations.addNewNote C n) = loading C
  ∧ org (mutations.addNewNote C n) = org C
  ∧ lastSync (mutations.addNewNote C n) = lastSync C.
Proof.
  unfold mutations.addNewNote.
  by destruct (reaches_proto_setter (notes C) (id n)).
Qed.

(** What [Add(n)] does for every id but "__proto__", and for "__proto__"
    where the collection has an own key of that name: [n] is stored under
    [n.id] whatever was there before, and every other key is left alone.
    A second application of the same [Add(n)] changes nothing, for every
    id. *)
Lemma addNewNote_stores (C : State) (n : Note) :
  (id n ≠ "__proto__" ∨ is_Some (notes C !! id n) →
     notes (mutations.addNewNote C n) !! id n = Some n)
  ∧ (∀ k, k ≠ id n →
       notes (mutations.addNewNote C n) !! k = notes C !! k)
  ∧ mutations.addNewNote (mutations.addNewNote C n) n
    = mutations.addNewNote C n.
Proof.
  unfold mutations.addNewNote at 1 2 4 5.
  destruct (reaches_proto_setter (notes C) (id n)) eqn:Hp.
  - apply reaches_proto_setter_true in Hp as [Hid Hnone].
    split; [intros [?|[? ?]]; congruence|]. split; [done|].
    unfold mutations.addNewNote.
    by rewrite (proj2 (reaches_proto_setter_true _ _)).
  - split; [intros _; apply lookup_insert_eq|].
    split; [intros k Hk; cbn; by rewrite lookup_insert_ne|].
    unfold mutations.addNewNote. cbn.
    rewrite reaches_proto_setter_false
      by (right; rewrite lookup_insert_eq; eauto).
    apply State_eq; try done. cbn. apply insert_insert_eq.
Qed.

(** C3, as the code has it.  For a note with the id "__proto__" and a
    collection without a key of that name, [Add(n)] inserts nothing: the
    state is the one before, no note stands under [n.id], and the view
    has the rows it had.  The same note served in a payload of [setNotes]
    is stored under its id. *)
Theorem addNewNote_proto_adds_no_key (C : State) (n : Note) :
  id n = "__proto__" → notes C !! id n = None →
  mutations.addNewNote C n = C
  ∧ notes (mutations.addNewNote C n) !! id n = None
  ∧ getters.notes (mutations.addNewNote C n) = getters.notes C
  ∧ notes (mutations.setNotes C (NotesObject {[ id n := n ]})) !! id n
    = Some n.
Proof.
  intros Hid Hnone.
  assert (mutations.addNewNote C n = C) as ->.
  { unfold mutations.addNewNote.
    by rewrite (proj2 (reaches_proto_setter_true _ _)). }
  repeat split; try done.
  cbn. apply lookup_union_Some_l, lookup_singleton_eq.
Qed.

Lemma addNewNote_proto_adds_no_key_witness :
  mutations.addNewNote (initial_state None) note_proto = initial_state None
  ∧ notes (mutations.addNewNote (initial_state None) note_proto)
      !! "__proto__" = None
  ∧ getters.notes (mutations.addNewNote (initial_state None) note_proto)
    = [note_redeem; note_covid]
  ∧ notes (mutations.setNotes (initial_state None)
             (NotesObject {[ "__proto__" := note_proto ]})) !! "__proto__"
    = Some note_proto.
Proof.
  destruct (addNewNote_proto_adds_no_key (initial_state None) note_proto)
    as (Hsame & Hkey & Hview & Hset).
  - reflexivity.
  - vm_compute. reflexivity.
  - split; [exact Hsame|]. split; [exact Hkey|]. split; [|exact Hset].
    rewrite Hview. vm_compute. reflexivity.
Defined.

(** C4. [Delete(k)] leaves no note under [k], leaves every other key and
    field alone, returns the collection unchanged when [k] is absent, and
    is idempotent; as a total function it cannot raise. *)
Theorem deleteNote_remove_total_idempotent (C : State) (k : string) :
  let C' := mutations.deleteNote C k in
  notes C' !! k = None
  ∧ (∀ j, j ≠ k → notes C' !! j = notes C !! j)
  ∧ loading C' = loading C ∧ org C' = org C ∧ lastSync C' = lastSync C
  ∧ (notes C !! k = None → C' = C)
  ∧ mutations.deleteNote C' k = C'.
Proof.
  cbn zeta. repeat split.
  - apply lookup_delete_eq.
  - intros j Hj. cbn. by rewrite lookup_delete_ne.
  - intros Hk. apply State_eq; try done. cbn. by apply delete_id.
  - apply State_eq; try done. cbn. apply delete_id, lookup_delete_eq.
Qed.

Lemma deleteNote_remove_total_idempotent_witness :
  mutations.deleteNote (initial_state None) "n1" = initial_state None.
Proof.
  destruct (deleteNote_remove_total_idempotent (initial_state None) "n1")
    as (_ & _ & _ & _ & _ & Habsent & _).
  apply Habsent. vm_compute. reflexivity.
Defined.

(** *** Replaying a list of events *)

Lemma apply_all_frame (E : list NoteEvent) (C : State) :
  loading (apply_all C E) = loading C
  ∧ org (apply_all C E) = org C
  ∧ lastSync (apply_all C E) = lastSync C.
Proof.
  revert C. induction E as [|e E IH]; intros C; [done|].
  change (apply_all C (e :: E)) with (apply_all (apply C e) E).
  destruct (IH (apply C e)) as (-> & -> & ->).
  destruct e as [n|j]; [apply addNewNote_frame|done].
Qed.

Lemma apply_lookup (C : State) (e : NoteEvent) (k : string) :
  notes (apply C e) !! k = apply_at k (notes C !! k) e.
Proof.
  destruct e as [n|j]; cbn.
  - unfold mutations.addNewNote.
    destruct (reaches_proto_setter (notes C) (id n)) eqn:Hp.
    + apply reaches_proto_setter_true in Hp as [Hid Hnone].
      destruct (decide (id n = k)) as [<-|]; [|done].
      rewrite decide_True by done. by rewrite Hnone.
    + cbn. rewrite lookup_insert.
      destruct (decide (id n = k)) as [<-|]; [|done].
      destruct (decide (id n = "__proto__")) as [Hid|]; [|done].
      destruct (notes C !! id n) eqn:Hk; [done|].
      by rewrite (proj2 (reaches_proto_setter_true _ _)) in Hp.
  - rewrite lookup_delete. by destruct (decide (j = k)).
Qed.

Lemma apply_all_lookup (E : list NoteEvent) (C : State) (k : string) :
  notes (apply_all C E) !! k = foldl (apply_at k) (notes C !! k) E.
Proof.
  revert C. induction E as [|e E IH]; intros C; [done|].
  change (apply_all C (e :: E)) with (apply_all (apply C e) E).
  by rewrite IH, apply_lookup.
Qed.

(** Under one key a list of events either writes nothing, or ends with
    the same entry whatever it started from, or (under "__proto__", where
    an Add replaces an entry and creates none) keeps an absent entry absent
    and ends with the same note from every entry that is there. *)
Lemma apply_at_shape (k : string) (E : list NoteEvent) :
  (∀ entry, foldl (apply_at k) entry E = entry)
  ∨ (∃ final, ∀ entry, foldl (apply_at k) entry E = final)
  ∨ (∃ n, foldl (apply_at k) None E = None
          ∧ ∀ x, foldl (apply_at k) (Some x) E = Some n).
Proof.
  induction E as [|e E IH]; [by left|].
  destruct e as [n|j]; cbn.
  - destruct (decide (id n = k)) as [Hn|]; [|done].
    destruct (decide (k = "__proto__")) as [Hk|].
    + destruct IH as [IH|[[final IH]|(m & IHn & IHs)]].
      * right; right. exists n. split; [apply IH|]. intros x. apply IH.
      * right; left. exists final. intros entry. apply IH.
      * right; right. exists m. split; [done|]. intros x. apply IHs.
    + right; left. exists (foldl (apply_at k) (Some n) E). done.
  - destruct (decide (j = k)); [|done].
    right; left. exists (foldl (apply_at k) None E). done.
Qed.

(** C5. Replaying an ordered list of Add and Delete events a second time
    gives the collection that the first replay gave. *)
Theorem apply_all_idempotent (C : State) (E : list NoteEvent) :
  apply_all (apply_all C E) E = apply_all C E.
Proof.
  destruct (apply_all_frame E (apply_all C E)) as (Hl & Ho & Hs).
  apply State_eq; try done.
  apply map_eq. intros k. rewrite !apply_all_lookup.
  destruct (apply_at_shape k E) as [H|[[final H]|(n & Hnone & Hsome)]].
  - by rewrite !H.
  - by rewrite H, (H (notes C !! k)).
  - destruct (notes C !! k) as [x|];
      [by rewrite !Hsome|by rewrite !Hnone].
Qed.

(** *** The sorted view *)

Lemma sort_insert_perm {A} (compare : A → A → Z) (x : A) (l : list A) :
  sort_insert compare x l ≡ₚ x :: l.
Proof.
  induction l as [|y l IH]; cbn; [done|].
  destruct (decide (compare x y ≤ 0)); [done|].
  by rewrite IH, Permutation_swap.
Qed.

Lemma Array_sort_perm {A} (compare : A → A → Z) (l : list A) :
  Array_sort compare l ≡ₚ l.
Proof.
  induction l as [|x l IH]; cbn; [done|].
  fold (Array_sort compare l). by rewrite sort_insert_perm, IH.
Qed.

Lemma sort_insert_sorted (x : Note) (l : list Note) :
  Sorted newest_first l → Sorted newest_first (sort_insert by_time_desc x l).
Proof.
  induction 1 as [|y l Hl IH Hy]; cbn.
  - repeat constructor.
  - destruct (decide (by_time_desc x y ≤ 0)) as [Hle|Hgt].
    + repeat constructor; try done. unfold newest_first, by_time_desc in *. lia.
    + constructor; [done|].
      destruct Hy as [|z l Hz]; cbn.
      * constructor. unfold newest_first, by_time_desc in *. lia.
      * destruct (decide (by_time_desc x z ≤ 0)); constructor; try done.
        unfold newest_first, by_time_desc in *. lia.
Qed.

Lemma Array_sort_sorted (l : list Note) :
  StronglySorted newest_first (Array_sort by_time_desc l).
Proof.
  apply Sorted_StronglySorted.
  { intros a b c. unfold newest_first. lia. }
  induction l as [|x l IH]; cbn; [constructor|].
  by apply sort_insert_sorted.
Qed.

Lemma StronglySorted_lookup_lt {A} (R : relation A) (l : list A) :
  StronglySorted R l →
  ∀ i j a b, (i < j)%nat → l !! i = Some a → l !! j = Some b → R a b.
Proof.
  induction 1 as [|x l Hl IH Hx]; intros i j a b Hij Hi Hj; [done|].
  destruct j as [|j]; [lia|]. cbn in Hj.
  destruct i as [|i]; cbn in Hi.
  - injection Hi as <-. rewrite Forall_forall in Hx.
    apply Hx. by eapply list_elem_of_lookup_2.
  - apply (IH i j); [lia|done..].
Qed.

(** Whatever order the host enumerates the values in, sorting them gives
    the notes newest first. *)
Lemma Array_sort_any_enumeration (vals : list Note) (o : gmap string Note) :
  vals ≡ₚ Object_values o →
  Array_sort by_time_desc vals ≡ₚ Object_values o
  ∧ StronglySorted newest_first (Array_sort by_time_desc vals).
Proof.
  intros H. split; [by rewrite Array_sort_perm|apply Array_sort_sorted].
Qed.

(** The sort is stable: notes of the same time keep the order in which
    they were enumerated.  With sortedness this fixes the result, so the
    choice of insertion sort among the stable sorts does not show. *)
Lemma sort_insert_same_time (t : Z) (x : Note) (l : list Note) :
  filter (λ n, time n = t) (sort_insert by_time_desc x l)
  = filter (λ n, time n = t) (x :: l).
Proof.
  induction l as [|y l IH]; [done|]. cbn [sort_insert].
  destruct (decide (by_time_desc x y ≤ 0)) as [|Hgt]; [done|].
  unfold by_time_desc in Hgt.
  rewrite (filter_cons _ y), IH, !filter_cons.
  repeat case_decide; try done; lia.
Qed.

Lemma Array_sort_stable (t : Z) (l : list Note) :
  filter (λ n, time n = t) (Array_sort by_time_desc l)
  = filter (λ n, time n = t) l.
Proof.
  induction l as [|x l IH]; [done|]. cbn [Array_sort foldr].
  fold (Array_sort by_time_desc l).
  by rewrite sort_insert_same_time, !filter_cons, IH.
Qed.

(** The view of the state that the store starts from. *)
Example getters_notes_initial_state :
  getters.notes (initial_state None) = [note_redeem; note_covid].
Proof. vm_compute. reflexivity. Qed.

(** C8. The [notes] getter lists every note of the collection, each as
    often as it is stored, and a note never stands before a newer one. *)
Theorem getters_notes_newest_first (state : State) :
  getters.notes state ≡ₚ Object_values (notes state)
  ∧ (∀ n, n ∈ getters.notes state ↔ ∃ k, notes state !! k = Some n)
  ∧ (∀ i j a b, (i < j)%nat →
       getters.notes state !! i = Some a →
       getters.notes state !! j = Some b →
       time b ≤ time a).
Proof.
  split; [apply Array_sort_perm|]. split.
  - intros n. unfold getters.notes. rewrite Array_sort_perm.
    unfold Object_values. rewrite list_elem_of_fmap. split.
    + intros [[k n'] [-> H]]. exists k. by apply elem_of_map_to_list.
    + intros [k H]. exists (k, n). split; [done|]. by apply elem_of_map_to_list.
  - intros i j a b. apply (StronglySorted_lookup_lt newest_first).
    apply Array_sort_sorted.
Qed.

Lemma getters_notes_newest_first_witness :
  time note_covid ≤ time note_redeem.
Proof.
  apply (proj2 (proj2 (getters_notes_newest_first (initial_state None)))
           0%nat 1%nat note_redeem note_covid).
  - lia.
  - vm_compute. reflexivity.
  - vm_compute. reflexivity.
Defined.

(** *** Local writes *)

(** Unfold one layer of a run and put the trace back in shape. *)
Ltac unfold_run := cbn; unfold log; cbn; rewrite <- ?app_assoc; cbn.

(** C9. [newNote] and [deleteNote] commit their mutation and return: no
    reply of the server and no answer of the user is consumed, the trace
    shows the dispatch and the commit only, and the other fields of the
    state stay as they are. *)
Theorem newNote_deleteNote_local_only
    (depth : nat) (w : World) (n : Note) (k : string) :
  dispatch (S depth) (NewNote n) w =
    (Returned JsUndefined,
     {| store := mutations.addNewNote (store w) n;
        server := server w; user := user w;
        trace := trace w ++ [EvDispatch (NewNote n); EvCommit (CAddNewNote n)] |})
  ∧ dispatch (S depth) (DeleteNote k) w =
    (Returned JsUndefined,
     {| store := mutations.deleteNote (store w) k;
        server := server w; user := user w;
        trace := trace w ++ [EvDispatch (DeleteNote k); EvCommit (CDeleteNote k)] |})
  ∧ loading (mutations.addNewNote (store w) n) = loading (store w)
  ∧ org (mutations.addNewNote (store w) n) = org (store w)
  ∧ lastSync (mutations.addNewNote (store w) n) = lastSync (store w)
  ∧ loading (mutations.deleteNote (store w) k) = loading (store w)
  ∧ org (mutations.deleteNote (store w) k) = org (store w)
  ∧ lastSync (mutations.deleteNote (store w) k) = lastSync (store w).
Proof.
  destruct (addNewNote_frame (store w) n) as (Hl & Ho & Hs).
  repeat split; try done; by unfold_run.
Qed.

(** [return dispatch(a)] resolves or rejects as the dispatched action. *)
Lemma run_Dispatch_Return (d : Action → World → Outcome * World)
    (a : Action) (w : World) :
  run d (Dispatch a Return) w = d a w.
Proof. cbn. by destruct (d a w) as [[] ?]. Qed.

(** *** The retry written out in [loadDates] *)

Lemma loadDates_failed (depth : nat) (after : option Z) (w : World)
    (res : Res.t) (rest : list Reply) (answer : bool) (answers : list bool) :
  server w = Resolved res :: rest → Res.ok res = false →
  user w = answer :: answers →
  dispatch (S depth) (LoadDates after) w =
    if answer
    then dispatch depth (LoadDates after)
           (after_prompt (LoadDates after) (loadDates_request after)
              res true rest answers w)
    else (Returned (JsBool false),
          after_prompt (LoadDates after) (loadDates_request after)
            res false rest answers w).
Proof.
  intros Hs Hok Hu. cbn. rewrite Hs. cbn. rewrite Hok. cbn. rewrite Hu.
  unfold after_prompt, loadDates_request. unfold_run.
  destruct answer; [|done].
  apply run_Dispatch_Return.
Qed.

Lemma commits_of_app (tr1 tr2 : list Event) :
  commits_of (tr1 ++ tr2) = commits_of tr1 ++ commits_of tr2.
Proof. apply omap_app. Qed.

(** *** A run appends to the trace, and commits are what changes the store *)

Lemma extends_refl (w : World) : extends w w.
Proof. exists []. by rewrite app_nil_r. Qed.

Lemma extends_trans (w1 w2 w3 : World) :
  extends w1 w2 → extends w2 w3 → extends w1 w3.
Proof.
  intros (tr1 & Ht1 & Hs1) (tr2 & Ht2 & Hs2). exists (tr1 ++ tr2).
  rewrite Ht2, Ht1, Hs2, Hs1, commits_of_app, foldl_app.
  by rewrite <- app_assoc.
Qed.

Lemma extends_event (w w0 : World) (e : Event) :
  store w0 = store w → trace w0 = trace w → is_commit e = false →
  extends w (log e w0).
Proof.
  intros Hs Ht He. exists [e]. cbn. rewrite Hs, Ht. split; [done|].
  by destruct e.
Qed.

Lemma extends_commit (w w0 : World) (c : Commit) :
  store w0 = commit (store w) c → trace w0 = trace w →
  extends w (log (EvCommit c) w0).
Proof. intros Hs Ht. exists [EvCommit c]. cbn. by rewrite Hs, Ht. Qed.

Lemma run_extends (d : Action → World → Outcome * World) :
  (∀ a w, extends w (d a w).2) → ∀ p w, extends w (run d p w).2.
Proof.
  intros Hd.
  induction p as [v|m|rq k IH|m k IH|m k IH|c k IH|a k IH|body IHb h IHh];
    intros w; cbn.
  - apply extends_refl.
  - apply extends_refl.
  - destruct (server w) as [|[res|m] rest]; cbn.
    + apply extends_refl.
    + eapply extends_trans; [|apply IH]. by apply extends_event.
    + by apply extends_event.
  - destruct (user w) as [|answer rest]; cbn.
    + apply extends_refl.
    + eapply extends_trans; [|apply IH]. by apply extends_event.
  - eapply extends_trans; [|apply IH]. by apply extends_event.
  - eapply extends_trans; [|apply IH]. by apply extends_commit.
  - specialize (Hd a w). destruct (d a w) as [[v|m|] w1]; cbn in *; try done.
    eapply extends_trans; [done|apply IH].
  - specialize (IHb w).
    destruct (run d body w) as [[v|m|] w1]; cbn in *; try done.
    eapply extends_trans; [done|apply IHh].
Qed.

Lemma dispatch_extends (depth : nat) (a : Action) (w : World) :
  extends w (dispatch depth a w).2.
Proof.
  revert a w. induction depth as [|depth IH]; intros a w; cbn.
  - apply extends_refl.
  - eapply extends_trans; [|by apply run_extends]. by apply extends_event.
Qed.

(** When the reply to [loadDates] is a refusal and the user answers the
    prompt with retry, the run continues as a dispatch of [loadDates] with
    the same [after], whose request is the request that failed; when the
    user declines, the action resolves (does not reject) with [false]. *)
Lemma loadDates_retry_request
    (depth : nat) (after : option Z) (w : World) (res : Res.t)
    (rest : list Reply) (answer : bool) (answers : list bool) :
  server w = Resolved res :: rest → Res.ok res = false →
  user w = answer :: answers →
  let rq := loadDates_request after in
  let w' := after_prompt (LoadDates after) rq res answer rest answers w in
  (answer = true →
     dispatch (S depth) (LoadDates after) w
       = dispatch depth (LoadDates after) w'
     ∧ ∀ reply rest', rest = reply :: rest' →
         ∃ tr, trace (dispatch (S (S depth)) (LoadDates after) w).2
               = trace w' ++ [EvDispatch (LoadDates after);
                              EvRequest rq reply] ++ tr)
  ∧ (answer = false →
     dispatch (S depth) (LoadDates after) w = (Returned (JsBool false), w')).
Proof.
  intros Hs Hok Hu rq w'. split.
  - intros ->. split.
    { by rewrite (loadDates_failed depth after w res rest true answers). }
    intros reply rest' ->.
    rewrite (loadDates_failed (S depth) after w res (reply :: rest') true answers)
      by done.
    fold rq. fold w'.
    change (dispatch (S depth) (LoadDates after) w')
      with (run (dispatch depth) (actions.loadDates after)
              (log (EvDispatch (LoadDates after)) w')).
    unfold actions.loadDates. fold (loadDates_request after). fold rq.
    cbn [run]. cbn [server log w' after_prompt].
    destruct reply as [res'|m].
    + match goal with |- context [run ?d ?p ?w0] =>
        destruct (run_extends d (dispatch_extends depth) p w0)
          as (tr & Htr & _) end.
      exists tr. rewrite Htr. unfold log. cbn. by rewrite <- !app_assoc.
    + exists []. unfold log. cbn. by rewrite <- !app_assoc.
  - intros ->.
    by rewrite (loadDates_failed depth after w res rest false answers).
Qed.

(** *** The retry written out in [newNote] and [deleteNote] *)




Ltac retried IH :=
  match goal with
  | |- context [NoteApi.dispatch ?depth ?a ?v0] =>
      specialize (IH v0); destruct (NoteApi.dispatch depth a v0) as [[] ?];
      cbn in *
  end.

(** The action that [dispatch("newNote")] starts never adds a note: with
    no note to send, every round of it ends waiting, in a prompt, or in
    the error of [addNewNote] on [undefined], and the store stays as it
    is. *)
Lemma newNote_without_note_stores_nothing (depth : nat)
    (v : NoteApi.World) :
  NoteApi.store (NoteApi.dispatch depth (NoteApi.NewNote None) v).2
  = NoteApi.store v.
Proof.
  revert v. induction depth as [|depth IH]; intros v; [done|].
  cbn. destruct (NoteApi.server v) as [|[res|message] replies]; [done|..].
  - cbn. destruct (NoteApi.Res.ok res); cbn.
    + destruct (NoteApi.user v) as [|[] answers]; cbn; [done| |done].
      by retried IH.
    + destruct (NoteApi.user v) as [|[] answers]; cbn; [done| |done].
      by retried IH.
  - cbn. destruct (NoteApi.user v) as [|[] answers]; cbn; [done| |done].
    by retried IH.
Qed.



(** [false] is returned by [loadDates] only when the user has just
    declined a prompt: it marks the abandoned outcome. *)
Lemma loadDates_false_means_declined (depth : nat) (after : option Z)
    (w w' : World) :
  dispatch depth (LoadDates after) w = (Returned (JsBool false), w') →
  ∃ tr message, trace w' = tr ++ [EvConfirm message false].
Proof.
  revert w. induction depth as [|depth IH]; intros w; [done|].
  cbn. destruct (server w) as [|[res|m] rest]; [done| |done].
  cbn. destruct (Res.ok res); cbn.
  - destruct (length_is_zero (Res.notes res)); cbn; congruence.
  - destruct (user w) as [|[] answers]; [done| |].
    + rewrite run_Dispatch_Return. apply IH.
    + cbn. intros [= <-]. cbn. eauto.
Qed.

(** *** Abandoning [loadDates] *)

(** C7. When every reply to [loadDates] is a refusal, the user retries
    any number of times and then declines, the action resolves with the
    falsy value [false] (it does not reject), no mutation is committed and
    the state of the store (notes and checkpoint included) is the one it
    started from. *)
Theorem loadDates_abandon_leaves_state
    (after : option Z) (fails : list Res.t) (last : Res.t)
    (depth : nat) (w : World) (rest : list Reply) (answers : list bool) :
  Forall (λ res, Res.ok res = false) fails → Res.ok last = false →
  server w = (Resolved <$> fails) ++ Resolved last :: rest →
  user w = replicate (length fails) true ++ false :: answers →
  (length fails < depth)%nat →
  ∃ tr,
    dispatch depth (LoadDates after) w
      = (Returned (JsBool false),
         {| store := store w; server := rest; user := answers;
            trace := trace w ++ tr |})
    ∧ falsy (JsBool false) = true
    ∧ commits_of tr = [].
Proof.
  revert depth w.
  induction fails as [|res fails IH]; intros depth w Hfails Hlast Hs Hu Hd;
    (destruct depth as [|depth]; [cbn in Hd; lia|]).
  - eexists. split; [|split; [done|]].
    + by rewrite (loadDates_failed depth after w last rest false answers).
    + done.
  - apply Forall_cons in Hfails as [Hres Hfails].
    rewrite (loadDates_failed depth after w res _ true _ Hs Hres Hu).
    match goal with |- context [dispatch depth (LoadDates after) ?w1] =>
      destruct (IH depth w1) as (tr & Heq & _ & Htr); try done;
      [cbn in Hd; lia|rewrite Heq]
    end.
    eexists. split; [|split; [done|]].
    + cbn. by rewrite <- app_assoc.
    + by rewrite commits_of_app, Htr.
Qed.

Lemma loadDates_abandon_leaves_state_witness :
  let refusal := {| Res.ok := false; Res.error := "offline";
                    Res.notes := NotesArray []; Res.time := 0 |} in
  let w := {| store := initial_state None;
              server := [Resolved refusal; Resolved refusal];
              user := [true; false]; trace := [] |} in
  ∃ tr,
    dispatch 2 (LoadDates None) w
      = (Returned (JsBool false),
         {| store := initial_state None; server := []; user := [];
            trace := [] ++ tr |})
    ∧ falsy (JsBool false) = true
    ∧ commits_of tr = [].
Proof.
  intros refusal w.
  apply (loadDates_abandon_leaves_state None [refusal] refusal 2 w [] []).
  - repeat constructor.
  - reflexivity.
  - reflexivity.
  - reflexivity.
  - cbn. lia.
Defined.

(** *** The bootstrap *)

(** One round of the wrapped [loadAllNotes]. *)
Lemma loadAllNotes_unfold (depth : nat) (w : World) :
  dispatch (S depth) LoadAllNotes w =
    match server w with
    | [] => (Waiting, log (EvDispatch LoadAllNotes) w)
    | reply :: rest =>
        let w1 :=
          {| store := store w; server := rest; user := user w;
             trace := trace w
               ++ [EvDispatch LoadAllNotes;
                   EvRequest (loadAllNotes_request (store w)) reply] |} in
        match reply with
        | Resolved res =>
            if Res.ok res then
              (Returned JsUndefined,
               {| store := mutations.setLastSync
                             (mutations.setNotes (store w) (Res.notes res))
                             (Res.time res);
                  server := rest; user := user w;
                  trace := trace w1
                             ++ [EvCommit (CSetNotes (Res.notes res));
                                 EvCommit (CSetLastSync (Res.time res))] |})
            else prompt_retry (dispatch depth LoadAllNotes) (Res.error res) w1
        | Rejected message =>
            prompt_retry (dispatch depth LoadAllNotes) message w1
        end
    end.
Proof.
  cbn. destruct (server w) as [|[res|m] rest]; [done| |].
  - cbn. destruct (Res.ok res); unfold_run; [done|].
    unfold prompt_retry. cbn.
    destruct (user w) as [|[] answers]; unfold_run; try done.
    by destruct (dispatch depth LoadAllNotes _) as [[] ?].
  - unfold_run. unfold prompt_retry. cbn.
    destruct (user w) as [|[] answers]; unfold_run; try done.
    by destruct (dispatch depth LoadAllNotes _) as [[] ?].
Qed.

(** A successful bootstrap leaves the served notes merged over the ones
    that the store already held. *)
Lemma loadAllNotes_success (depth : nat) (w : World) (res : Res.t)
    (rest : list Reply) :
  server w = Resolved res :: rest → Res.ok res = true →
  dispatch (S depth) LoadAllNotes w
    = (Returned JsUndefined,
       {| store := {| loading := loading (store w);
                      notes := own_properties (Res.notes res) ∪ notes (store w);
                      org := org (store w);
                      lastSync := Some (Res.time res) |};
          server := rest; user := user w;
          trace := trace w
                     ++ [EvDispatch LoadAllNotes;
                         EvRequest (loadAllNotes_request (store w)) (Resolved res);
                         EvCommit (CSetNotes (Res.notes res));
                         EvCommit (CSetLastSync (Res.time res))] |}).
Proof.
  intros Hs Hok. rewrite loadAllNotes_unfold, Hs. cbn. rewrite Hok.
  by rewrite <- app_assoc.
Qed.

Lemma bootstrap_shape_app (tr1 tr2 : list Event) :
  forallb (λ e, negb (is_commit e)) tr1 = true →
  bootstrap_shape tr2 → bootstrap_shape (tr1 ++ tr2).
Proof.
  intros H1 (pre & Hpre & [->|[res ->]]); exists (tr1 ++ pre);
    (split; [by rewrite forallb_app, H1, Hpre|]).
  - by left.
  - right. exists res. by rewrite app_assoc.
Qed.

Lemma loadAllNotes_trace_shape (depth : nat) (w : World) :
  ∃ tr, trace (dispatch depth LoadAllNotes w).2 = trace w ++ tr
        ∧ bootstrap_shape tr.
Proof.
  revert w. induction depth as [|depth IH]; intros w.
  { exists []. split; [by rewrite app_nil_r|]. exists []. split; [done|by left]. }
  assert (Hretry : ∀ message w1,
    ∃ tr, trace (prompt_retry (dispatch depth LoadAllNotes) message w1).2
          = trace w1 ++ tr ∧ bootstrap_shape tr).
  { intros message w1. unfold prompt_retry.
    destruct (user w1) as [|[] answers]; cbn zeta.
    - exists []. split; [by rewrite app_nil_r|]. exists []. split; [done|by left].
    - match goal with |- context [dispatch depth LoadAllNotes ?w2] =>
        destruct (IH w2) as (tr & -> & Htr) end.
      exists ([EvConfirm (try_again message) true] ++ tr).
      split; [cbn; by rewrite <- app_assoc|]. by apply bootstrap_shape_app.
    - exists [EvConfirm (try_again message) false].
      split; [done|]. eexists. split; [|by left]. done. }
  rewrite loadAllNotes_unfold.
  destruct (server w) as [|reply rest].
  { exists [EvDispatch LoadAllNotes]. split; [done|].
    eexists. split; [|by left]. done. }
  cbn zeta.
  assert (Hsent : ∀ tr, bootstrap_shape tr →
    bootstrap_shape ([EvDispatch LoadAllNotes;
                      EvRequest (loadAllNotes_request (store w)) reply] ++ tr)).
  { intros tr. by apply bootstrap_shape_app. }
  destruct reply as [res|m]; [destruct (Res.ok res)|].
  - eexists. split; [cbn; by rewrite <- app_assoc|].
    apply Hsent. exists []. split; [done|]. right. by exists res.
  - destruct (Hretry (Res.error res)
      {| store := store w; server := rest; user := user w;
         trace := trace w ++ [EvDispatch LoadAllNotes;
           EvRequest (loadAllNotes_request (store w)) (Resolved res)] |})
      as (tr & -> & Htr).
    eexists. split; [cbn; by rewrite <- app_assoc|]. by apply Hsent.
  - destruct (Hretry m
      {| store := store w; server := rest; user := user w;
         trace := trace w ++ [EvDispatch LoadAllNotes;
           EvRequest (loadAllNotes_request (store w)) (Rejected m)] |})
      as (tr & -> & Htr).
    eexists. split; [cbn; by rewrite <- app_assoc|]. by apply Hsent.
Qed.

Lemma commits_of_no_commit (pre : list Event) :
  forallb (λ e, negb (is_commit e)) pre = true → commits_of pre = [].
Proof.
  induction pre as [|e pre IH]; [done|].
  cbn. intros [He Hpre]%andb_prop. destruct e; try done; by apply IH.
Qed.

Lemma no_commit_lookup (pre : list Event) (i : nat) (c : Commit) :
  forallb (λ e, negb (is_commit e)) pre = true →
  pre !! i = Some (EvCommit c) → False.
Proof.
  intros Hpre Hi. apply list_elem_of_lookup_2 in Hi.
  rewrite forallb_forall in Hpre.
  apply list_elem_of_In, Hpre in Hi. done.
Qed.

(** The body of [loadAllNotes] in one step, under any dispatcher. *)
Lemma loadAllNotes_body_run (d : Action → World → Outcome * World)
    (state : State) (w : World) :
  run d (actions.loadAllNotes state) w =
    match server w with
    | [] => (Waiting, w)
    | reply :: rest =>
        let w1 :=
          {| store := store w; server := rest; user := user w;
             trace := trace w ++ [EvRequest (loadAllNotes_request state) reply] |} in
        match reply with
        | Resolved res =>
            if Res.ok res then
              (Returned JsUndefined,
               {| store := mutations.setLastSync
                             (mutations.setNotes (store w) (Res.notes res))
                             (Res.time res);
                  server := rest; user := user w;
                  trace := trace w1
                             ++ [EvCommit (CSetNotes (Res.notes res));
                                 EvCommit (CSetLastSync (Res.time res))] |})
            else (Thrown (Res.error res), w1)
        | Rejected message => (Thrown message, w1)
        end
    end.
Proof.
  cbn. destruct (server w) as [|[res|m] rest]; [done| |done].
  cbn. by destruct (Res.ok res); unfold_run.
Qed.

Lemma loadAllNotes_body_extends (d : Action → World → Outcome * World)
    (state : State) (w : World) :
  extends w (run d (actions.loadAllNotes state) w).2.
Proof.
  rewrite loadAllNotes_body_run.
  destruct (server w) as [|[res|m] rest]; [|destruct (Res.ok res)|]; cbn.
  - apply extends_refl.
  - eexists. split; [by rewrite <- app_assoc|done].
  - by eexists.
  - by eexists.
Qed.

Lemma loadAllNotes_body_shape (d : Action → World → Outcome * World)
    (state : State) (w : World) :
  ∃ tr, trace (run d (actions.loadAllNotes state) w).2 = trace w ++ tr
        ∧ bootstrap_shape tr.
Proof.
  rewrite loadAllNotes_body_run.
  destruct (server w) as [|[res|m] rest]; [|destruct (Res.ok res)|]; cbn.
  - exists []. split; [by rewrite app_nil_r|]. exists []. split; [done|by left].
  - exists ([EvRequest (loadAllNotes_request state) (Resolved res)]
            ++ [EvCommit (CSetNotes (Res.notes res));
                EvCommit (CSetLastSync (Res.time res))]).
    split; [by rewrite <- app_assoc|].
    exists [EvRequest (loadAllNotes_request state) (Resolved res)].
    split; [done|]. right. by exists res.
  - exists [EvRequest (loadAllNotes_request state) (Resolved res)].
    split; [done|]. eexists. split; [|by left]. done.
  - exists [EvRequest (loadAllNotes_request state) (Rejected m)].
    split; [done|]. eexists. split; [|by left]. done.
Qed.

(** In a trace of that shape the notes are committed before the
    checkpoint. *)
Lemma bootstrap_shape_order (tr : list Event) :
  bootstrap_shape tr →
  (commits_of tr = []
   ∨ ∃ res, commits_of tr = [CSetNotes (Res.notes res);
                             CSetLastSync (Res.time res)])
  ∧ ∀ i t, tr !! i = Some (EvCommit (CSetLastSync t)) →
      ∃ j ns, (j < i)%nat ∧ tr !! j = Some (EvCommit (CSetNotes ns)).
Proof.
  intros (pre & Hpre & [->|[res ->]]); split.
  - left. by apply commits_of_no_commit.
  - intros i t Hi. by destruct (no_commit_lookup pre i _ Hpre Hi).
  - right. exists res. by rewrite commits_of_app, commits_of_no_commit.
  - intros i t Hi. exists (length pre), (Res.notes res).
    destruct (decide (i < length pre)%nat) as [Hlt|Hge].
    { rewrite lookup_app_l in Hi by done.
      by destruct (no_commit_lookup pre i _ Hpre Hi). }
    rewrite lookup_app_r in Hi by lia.
    destruct (i - length pre)%nat as [|[|k]] eqn:Hk; cbn in Hi; try done.
    split; [lia|].
    rewrite lookup_app_r by lia. by rewrite Nat.sub_diag.
Qed.

(** C1. In every run of the bootstrap the events added to the trace hold
    either no commit or exactly the commit of the notes followed by the
    commit of the checkpoint of the same reply, and the store changes by
    these commits only: a commit of [setLastSync] always has a commit of
    [setNotes] before it.  This holds of the body of [loadAllNotes] under
    any dispatcher, and of the wrapped action whatever the number of
    retries and whether the run has finished or not. *)
Theorem loadAllNotes_notes_before_checkpoint (depth : nat) (w : World) :
  (∀ d state, ordered_bootstrap w (run d (actions.loadAllNotes state) w).2)
  ∧ ordered_bootstrap w (dispatch depth LoadAllNotes w).2.
Proof.
  split.
  - intros d state.
    destruct (loadAllNotes_body_shape d state w) as (tr & Htr & Hshape).
    destruct (loadAllNotes_body_extends d state w) as (tr' & Htr' & Hstore).
    assert (tr' = tr) as -> by (apply (app_inv_head (trace w)); congruence).
    exists tr. split; [done|]. split; [done|]. by apply bootstrap_shape_order.
  - destruct (loadAllNotes_trace_shape depth w) as (tr & Htr & Hshape).
    destruct (dispatch_extends depth LoadAllNotes w) as (tr' & Htr' & Hstore).
    assert (tr' = tr) as -> by (apply (app_inv_head (trace w)); congruence).
    exists tr. split; [done|]. split; [done|]. by apply bootstrap_shape_order.
Qed.

(** C2, as the code has it.  Bootstrapping the store that holds the two
    UI testing notes against a server that holds one other note succeeds
    and advances the checkpoint, and the note "sldgjldskjglsd", which the
    server did not return, is still in the collection: the collection is
    not the one the server returned. *)
Theorem loadAllNotes_keeps_stale_notes :
  let result := dispatch 1 LoadAllNotes bootstrap_world in
  result.1 = Returned JsUndefined
  ∧ lastSync (store result.2) = Some 1643190100
  ∧ own_properties (Res.notes bootstrap_reply) !! "sldgjldskjglsd" = None
  ∧ notes (store result.2) !! "sldgjldskjglsd" = Some note_covid
  ∧ notes (store result.2) ≠ own_properties (Res.notes bootstrap_reply).
Proof.
  cbn zeta.
  rewrite (loadAllNotes_success 0 bootstrap_world bootstrap_reply []) by done.
  assert (Hserved :
    own_properties (Res.notes bootstrap_reply) !! "sldgjldskjglsd" = None).
  { cbn. by rewrite lookup_insert_ne. }
  assert (Hkept :
    (own_properties (Res.notes bootstrap_reply)
       ∪ notes (store bootstrap_world)) !! "sldgjldskjglsd" = Some note_covid).
  { rewrite lookup_union_r by done. cbn. apply lookup_insert_eq. }
  do 4 (split; [done|]).
  cbn [snd store notes]. intros Heq. rewrite Heq in Hkept. congruence.
Qed.

(** *** The route guard *)

(** C10. The guard sends the navigation to the login route exactly when
    the first matched record requires private auth and nobody is signed
    in; the location then is [{ name: "login" }], with the query
    [{ redirect: JSON.stringify({ path, query }) }] of the target unless
    the target path is "/", for which no query is attached.  (Without a
    matched record [requiredAuth] throws.) *)
Theorem AuthChecker_login_redirect {Query User : Type}
    (JSON_stringify : string → Query → string)
    (currentUser : option User) (state : State) (to : Route.t Query) :
  match AuthChecker JSON_stringify currentUser state to with
  | None => Route.matched to = []
  | Some n =>
      ∃ first rest, Route.matched to = first :: rest
      ∧ (to_login n = true
         ↔ RouteRecord.Auth_requirements first = AuthType.private
           ∧ currentUser = None)
      ∧ (to_login n = true →
         n = NextRoute
               {| RouteTo.name := "login";
                  RouteTo.query :=
                    if decide (Route.path to = "/") then None
                    else Some {| redirect := JSON_stringify (Route.path to)
                                               (Route.query to) |} |})
  end.
Proof.
  unfold AuthChecker, requiredAuth.
  destruct (Route.matched to) as [|first rest]; [done|].
  exists first, rest. split; [done|]. cbn [Required.private Required.public_only].
  destruct (Z.eqb_spec (RouteRecord.Auth_requirements first) AuthType.private)
    as [Hp|Hp];
    destruct currentUser as [u|]; cbn [logged_in negb andb].
  - split; [|by repeat case_match]. split; [|by intros [_ [=]]].
    by repeat case_match.
  - destruct (String.eqb_spec (Route.path to) "/") as [Hpath|Hpath];
      destruct (decide (Route.path to = "/")); try done.
  - split; [|by repeat case_match]. split; [|by intros [? _]].
    by repeat case_match.
  - split; [|by repeat case_match]. split; [|by intros [? _]].
    by repeat case_match.
Qed.

(** Signed out, the view page sends to the login route with the way back;
    the home page sends there without a query; the login page is shown. *)
Example AuthChecker_signed_out {Query User : Type}
    (JSON_stringify : string → Query → string) (q : Query) (state : State) :
  AuthChecker (User := User) JSON_stringify None state
    {| Route.path := "/view"; Route.name := Some "view"; Route.query := q;
       Route.matched := matched_by_name "view" |}
  = Some (NextRoute
            {| RouteTo.name := "login";
               RouteTo.query := Some {| redirect := JSON_stringify "/view" q |} |})
  ∧ AuthChecker (User := User) JSON_stringify None state
      {| Route.path := "/"; Route.name := Some "home"; Route.query := q;
         Route.matched := matched_by_name "home" |}
    = Some (NextRoute {| RouteTo.name := "login"; RouteTo.query := None |})
  ∧ AuthChecker (User := User) JSON_stringify None state
      {| Route.path := "/login"; Route.name := Some "login"; Route.query := q;
         Route.matched := matched_by_name "login" |}
    = Some NextContinue.
Proof. done. Qed.

(** * Further properties of the code *)

(** ** Mutations of the notes store *)

Lemma apply_at_other (k : string) (E : list NoteEvent) (entry : option Note) :
  k ∉ event_id <$> E → foldl (apply_at k) entry E = entry.
Proof.
  revert entry. induction E as [|e E IH]; intros entry Hk; [done|].
  rewrite fmap_cons, not_elem_of_cons in Hk. destruct Hk as [Hne Hk].
  cbn. rewrite IH by done.
  destruct e as [n|j]; cbn in *; by case_decide.
Qed.

Lemma apply_at_named (k : string) (e : NoteEvent) (entry : option Note) :
  event_id e = k →
  k ≠ "__proto__" ∨ is_Some entry ∨ e = Delete k →
  apply_at k entry e = entry_of e.
Proof.
  intros <- Hk. destruct e as [n|j]; cbn; rewrite decide_True by done;
    [|done].
  destruct (decide (id n = "__proto__")) as [Hid|]; [|done].
  destruct Hk as [?|[[x ->]|?]]; done.
Qed.

Lemma apply_at_proto_absent (E : list NoteEvent) :
  foldl (apply_at "__proto__") None E = None.
Proof.
  induction E as [|e E IH]; [done|]. cbn.
  destruct e as [n|j]; cbn; repeat case_decide; done.
Qed.

(** X1. A replay leaves alone every key that none of its events names.
    Under a key that is named the last event naming it decides: no note
    after a Delete, the note of an Add.  For the key "__proto__" the Add
    decides where an entry is there when it is applied; an absent entry
    under "__proto__" stays absent through every replay. *)
Theorem apply_all_last_event_decides (C : State) (E : list NoteEvent)
    (k : string) :
  (k ∉ event_id <$> E → notes (apply_all C E) !! k = notes C !! k)
  ∧ (∀ E1 e E2, E = E1 ++ e :: E2 → event_id e = k →
       k ∉ event_id <$> E2 →
       k ≠ "__proto__" ∨ is_Some (notes (apply_all C E1) !! k)
         ∨ e = Delete k →
       notes (apply_all C E) !! k = entry_of e)
  ∧ (notes C !! "__proto__" = None →
       notes (apply_all C E) !! "__proto__" = None).
Proof.
  split; [|split].
  - intros Hk. by rewrite apply_all_lookup, apply_at_other.
  - intros E1 e E2 -> He Hk Hown.
    rewrite apply_all_lookup, foldl_app. cbn.
    rewrite apply_at_other by done. apply apply_at_named; [done|].
    by rewrite <- apply_all_lookup.
  - intros Hnone. rewrite apply_all_lookup, Hnone.
    apply apply_at_proto_absent.
Qed.

Lemma apply_all_last_event_decides_witness :
  notes (apply_all (initial_state None)
           [Add note_served; Delete "rwihfnldbxf"; Delete "n1"]) !! "n1"
  = None.
Proof.
  apply (proj1 (proj2 (apply_all_last_event_decides (initial_state None)
                  [Add note_served; Delete "rwihfnldbxf"; Delete "n1"] "n1"))
           [Add note_served; Delete "rwihfnldbxf"] (Delete "n1") []).
  - reflexivity.
  - reflexivity.
  - cbn. apply not_elem_of_nil.
  - left. discriminate.
Defined.

(** X2. Two batches of events that name no key in common can be replayed
    in either order. *)
Theorem apply_all_disjoint_commute (C : State) (E1 E2 : list NoteEvent) :
  (∀ k, k ∈ event_id <$> E1 → k ∉ event_id <$> E2) →
  apply_all C (E1 ++ E2) = apply_all C (E2 ++ E1).
Proof.
  intros Hdisj.
  destruct (apply_all_frame (E1 ++ E2) C) as (Hl1 & Ho1 & Hs1).
  destruct (apply_all_frame (E2 ++ E1) C) as (Hl2 & Ho2 & Hs2).
  apply State_eq; try congruence.
  apply map_eq. intros k. rewrite !apply_all_lookup, !foldl_app.
  destruct (decide (k ∈ event_id <$> E1)) as [Hin|Hout].
  - by rewrite !(apply_at_other k E2) by auto.
  - by rewrite !(apply_at_other k E1) by done.
Qed.

Lemma apply_all_disjoint_commute_witness :
  apply_all (initial_state None) ([Add note_served] ++ [Delete "rwihfnldbxf"])
  = apply_all (initial_state None) ([Delete "rwihfnldbxf"] ++ [Add note_served]).
Proof.
  apply apply_all_disjoint_commute.
  intros k Hk Hk'. cbn in Hk, Hk'.
  apply list_elem_of_singleton in Hk. apply list_elem_of_singleton in Hk'.
  rewrite Hk in Hk'. discriminate Hk'.
Defined.

(** X3. For a note whose id is not "__proto__": adding it under an id
    that is not in use and deleting that id restores the state; deleting
    an id and then adding a note under it is the same as adding it. *)
Theorem add_delete_round_trip (C : State) (n : Note) :
  id n ≠ "__proto__" →
  (notes C !! id n = None →
     mutations.deleteNote (mutations.addNewNote C n) (id n) = C)
  ∧ mutations.addNewNote (mutations.deleteNote C (id n)) n
    = mutations.addNewNote C n.
Proof.
  intros Hid. unfold mutations.addNewNote.
  rewrite !reaches_proto_setter_false by by left.
  split.
  - intros Hfresh. apply State_eq; try done. cbn.
    by rewrite delete_insert_eq, delete_id.
  - apply State_eq; try done. cbn. apply insert_delete_eq.
Qed.

Lemma add_delete_round_trip_witness :
  mutations.deleteNote (mutations.addNewNote (initial_state None) note_served)
    (id note_served)
  = initial_state None.
Proof.
  apply (proj1 (add_delete_round_trip (initial_state None) note_served
                  ltac:(discriminate))).
  vm_compute. reflexivity.
Defined.

(** ** The view after a mutation *)

Lemma getters_notes_length (state : State) :
  length (getters.notes state) = size (notes state).
Proof.
  unfold getters.notes, Object_values.
  by rewrite Array_sort_perm, length_fmap, length_map_to_list.
Qed.

Lemma getters_notes_elem_of (state : State) (m : Note) :
  m ∈ getters.notes state ↔ ∃ j, notes state !! j = Some m.
Proof. apply getters_notes_newest_first. Qed.

(** X4. The view has one row per key of the collection.  Adding a note
    under an id that is in use keeps the number of rows; adding under a
    new id makes it one more, except under the id "__proto__", where it
    keeps it; deleting an id that is in use makes it one less, deleting
    another id keeps it. *)
Theorem getters_notes_rows (state : State) (n : Note) (k : string) :
  length (getters.notes state) = size (notes state)
  ∧ length (getters.notes (mutations.addNewNote state n))
    = match notes state !! id n with
      | Some _ => length (getters.notes state)
      | None =>
          if decide (id n = "__proto__") then length (getters.notes state)
          else S (length (getters.notes state))
      end
  ∧ length (getters.notes (mutations.deleteNote state k))
    = match notes state !! k with
      | Some _ => pred (length (getters.notes state))
      | None => length (getters.notes state)
      end.
Proof.
  rewrite !getters_notes_length. split; [done|]. split.
  - unfold mutations.addNewNote.
    destruct (reaches_proto_setter (notes state) (id n)) eqn:Hp.
    + apply reaches_proto_setter_true in Hp as [Hid Hnone].
      by rewrite Hnone, decide_True.
    + cbn. rewrite map_size_insert.
      destruct (notes state !! id n) eqn:Hk; [done|].
      destruct (decide (id n = "__proto__")) as [Hid|]; [|done].
      by rewrite (proj2 (reaches_proto_setter_true _ _)) in Hp.
  - cbn. rewrite map_size_delete. by destruct (notes state !! k).
Qed.

(** X5. After [addNewNote] of a note whose id is not "__proto__", or is
    in use, the view shows the new note and, of the old ones, those
    stored under another id; after [addNewNote] of a note with the id
    "__proto__" on a collection without that key the view is the one
    before.  After [deleteNote] it shows the notes stored under another
    id, so the deleted entry is gone from the list. *)
Theorem getters_notes_after_mutation (state : State) (n m : Note)
    (k : string) :
  (id n ≠ "__proto__" ∨ is_Some (notes state !! id n) →
     (m ∈ getters.notes (mutations.addNewNote state n)
        ↔ m = n ∨ ∃ j, j ≠ id n ∧ notes state !! j = Some m))
  ∧ (id n = "__proto__" → notes state !! id n = None →
       getters.notes (mutations.addNewNote state n) = getters.notes state)
  ∧ (m ∈ getters.notes (mutations.deleteNote state k)
     ↔ ∃ j, j ≠ k ∧ notes state !! j = Some m).
Proof.
  split; [|split].
  - intros Hown. rewrite getters_notes_elem_of.
    unfold mutations.addNewNote.
    rewrite reaches_proto_setter_false by done. cbn. split.
    + intros [j Hj]. apply lookup_insert_Some in Hj as [[_ ->]|[? ?]]; eauto.
    + intros [->|(j & Hj & Hm)].
      * exists (id n). apply lookup_insert_eq.
      * exists j. by rewrite lookup_insert_ne.
  - intros Hid Hnone. unfold mutations.addNewNote.
    by rewrite (proj2 (reaches_proto_setter_true _ _)).
  - rewrite getters_notes_elem_of. cbn. split.
    + intros [j Hj]. apply lookup_delete_Some in Hj as [? ?]. eauto.
    + intros (j & Hj & Hm). exists j. by rewrite lookup_delete_ne.
Qed.

(** ** [setNotes] *)

(** X6. [setNotes] merges: under every key the served note wins, and
    where nothing is served the old entry stays, so no key is ever
    removed; committing the same payload twice is the same as once. *)
Theorem setNotes_merges (state : State) (ns : JsNotes) :
  (∀ k, notes (mutations.setNotes state ns) !! k
        = match own_properties ns !! k with
          | Some n => Some n
          | None => notes state !! k
          end)
  ∧ dom (notes state) ⊆ dom (notes (mutations.setNotes state ns))
  ∧ mutations.setNotes (mutations.setNotes state ns) ns
    = mutations.setNotes state ns.
Proof.
  split; [|split].
  - intros k. cbn. rewrite lookup_union.
    by destruct (own_properties ns !! k), (notes state !! k).
  - cbn. rewrite dom_union_L. set_solver.
  - apply State_eq; try done. cbn.
    by rewrite (assoc_L (∪)), (idemp_L (∪)).
Qed.

Lemma array_properties_lookup (l : list Note) (j : nat) (k : string)
    (n : Note) :
  (list_to_map (imap (λ i x, (pretty (j + i)%nat, x)) l) : gmap string Note)
    !! k = Some n
  ↔ ∃ i, k = pretty (j + i)%nat ∧ l !! i = Some n.
Proof.
  revert j. induction l as [|x l IH]; intros j.
  - cbn. rewrite lookup_empty. split; [done|]. by intros (i & _ & ?).
  - rewrite imap_cons. cbn [list_to_map foldr]. rewrite lookup_insert_Some.
    erewrite (imap_ext _ (λ i x, (pretty (S j + i)%nat, x)));
      [|intros i y _; cbn; by rewrite Nat.add_succ_r].
    rewrite IH. split.
    + intros [[<- <-]|[_ (i & -> & Hi)]].
      * by exists 0%nat.
      * exists (S i). by rewrite Nat.add_succ_r.
    + intros ([|i] & -> & Hi); cbn in Hi.
      * left. by injection Hi as ->.
      * right. split.
        { cbn. intros Heq%(inj pretty). lia. }
        exists i. by rewrite Nat.add_succ_r.
Qed.

Lemma own_properties_array (l : list Note) (k : string) (n : Note) :
  own_properties (NotesArray l) !! k = Some n
  ↔ ∃ i : nat, k = pretty i ∧ l !! i = Some n.
Proof. apply (array_properties_lookup l 0). Qed.

(** X7. A payload that is an array is spread by index: its i-th note is
    stored under the key that prints i, whatever the id of the note, and
    the other keys keep their entry.  A second array at least as long as
    a first one therefore overwrites everything the first one stored. *)
Theorem setNotes_array_by_index (state : State) (l l' : list Note) :
  (∀ (i : nat) n, l !! i = Some n →
     notes (mutations.setNotes state (NotesArray l)) !! pretty i = Some n)
  ∧ (∀ k, (∀ i : nat, (i < length l)%nat → k ≠ pretty i) →
       notes (mutations.setNotes state (NotesArray l)) !! k
       = notes state !! k)
  ∧ ((length l ≤ length l')%nat →
     mutations.setNotes (mutations.setNotes state (NotesArray l))
       (NotesArray l')
     = mutations.setNotes state (NotesArray l')).
Proof.
  split; [|split].
  - intros i n Hi. cbn -[own_properties]. apply lookup_union_Some_l.
    apply own_properties_array. eauto.
  - intros k Hk. cbn -[own_properties]. apply lookup_union_r.
    destruct (own_properties (NotesArray l) !! k) as [n|] eqn:Hn; [|done].
    apply own_properties_array in Hn as (i & -> & Hi).
    destruct (Hk i); [|done]. by eapply lookup_lt_Some.
  - intros Hlen. apply State_eq; try done. cbn -[own_properties].
    apply map_eq. intros k. rewrite !lookup_union.
    destruct (own_properties (NotesArray l') !! k) as [n'|] eqn:Hn';
      [by destruct (own_properties (NotesArray l) !! k), (notes state !! k)|].
    destruct (own_properties (NotesArray l) !! k) as [n|] eqn:Hn;
      [|by destruct (notes state !! k)].
    apply own_properties_array in Hn as (i & -> & Hi).
    destruct (lookup_lt_is_Some_2 l' i) as [n' Hi'].
    { apply lookup_lt_Some in Hi. lia. }
    assert (own_properties (NotesArray l') !! pretty i = Some n') as Hsome
      by (apply own_properties_array; eauto).
    congruence.
Qed.

Lemma setNotes_array_by_index_witness :
  notes (mutations.setNotes (initial_state None)
           (NotesArray [note_served])) !! "0"
  = Some note_served.
Proof.
  apply (proj1 (setNotes_array_by_index (initial_state None)
                  [note_served] []) 0%nat note_served).
  reflexivity.
Defined.

Lemma replay_adds_lookup (l : list Note) (k : string)
    (entry : option Note) :
  NoDup (id <$> l) →
  (k = "__proto__" → k ∈ id <$> l → is_Some entry) →
  (∀ n, n ∈ l → id n = k →
     foldl (apply_at k) entry (Add <$> l) = Some n)
  ∧ (k ∉ id <$> l → foldl (apply_at k) entry (Add <$> l) = entry).
Proof.
  intros Hnd Hown. split.
  - revert entry Hnd Hown.
    induction l as [|x l IH]; intros entry Hnd Hown n Hn Hk;
      [by apply elem_of_nil in Hn|].
    rewrite fmap_cons, NoDup_cons in Hnd. destruct Hnd as [Hx Hnd].
    apply elem_of_cons in Hn as [->|Hn].
    + rewrite fmap_cons. cbn [foldl].
      assert (k ∉ event_id <$> (Add <$> l)) as Hout.
      { rewrite <- list_fmap_compose. by rewrite <- Hk. }
      rewrite apply_at_other by done.
      apply (apply_at_named k (Add x)); [done|].
      destruct (decide (k = "__proto__")) as [Hp|]; [|by left].
      right; left. apply Hown; [done|]. rewrite fmap_cons, Hk. left.
    + assert (id x ≠ k) as Hne.
      { intros Heq. apply Hx. rewrite Heq, <- Hk.
        by apply list_elem_of_fmap_2. }
      rewrite fmap_cons. cbn [foldl]. apply IH; try done.
      intros Hp Hin. cbn. rewrite decide_False by done.
      apply Hown; [done|]. rewrite fmap_cons. by right.
  - intros Hout. apply apply_at_other. by rewrite <- list_fmap_compose.
Qed.

(** X8. When the payload is an object whose notes stand under their own
    id, and it has the key "__proto__" only where the state has that key
    too, committing [setNotes] gives the state that adding its notes one
    by one with [addNewNote] gives, in whatever order they are taken. *)
Theorem setNotes_as_replay (state : State) (m : gmap string Note)
    (l : list Note) :
  (∀ k n, m !! k = Some n → id n = k) →
  (is_Some (m !! "__proto__") → is_Some (notes state !! "__proto__")) →
  l ≡ₚ Object_values m →
  mutations.setNotes state (NotesObject m) = apply_all state (Add <$> l).
Proof.
  intros Hid Hown Hl.
  destruct (apply_all_frame (Add <$> l) state) as (Hl' & Ho & Hs).
  apply State_eq; try done.
  assert (∀ n, n ∈ l ↔ ∃ j, m !! j = Some n) as Hin.
  { intros n. rewrite Hl. unfold Object_values.
    rewrite list_elem_of_fmap. split.
    - intros ([j y] & -> & Hy). exists j. by apply elem_of_map_to_list.
    - intros [j Hj]. exists (j, n). split; [done|].
      by apply elem_of_map_to_list. }
  assert (id <$> Object_values m = (map_to_list m).*1) as Heq.
  { unfold Object_values. rewrite <- list_fmap_compose.
    apply list_fmap_ext. intros i [j n] Hj. cbn.
    apply Hid. apply elem_of_map_to_list. by eapply list_elem_of_lookup_2. }
  assert (id <$> l ≡ₚ (map_to_list m).*1) as Hids by (by rewrite Hl, Heq).
  assert (∀ k, k ∈ id <$> l ↔ is_Some (m !! k)) as Hkeys.
  { intros k. rewrite Hids, list_elem_of_fmap. split.
    - intros ([j n] & -> & Hj). apply elem_of_map_to_list in Hj. by eexists.
    - intros [n Hn]. exists (k, n). split; [done|].
      by apply elem_of_map_to_list. }
  apply map_eq. intros k. rewrite apply_all_lookup.
  destruct (replay_adds_lookup l k (notes state !! k)) as [Hsome Hnone].
  - rewrite Hids. apply NoDup_fst_map_to_list.
  - intros -> Hk. apply Hown. by apply Hkeys.
  - cbn. rewrite lookup_union. destruct (m !! k) as [n|] eqn:Hk.
    + rewrite (Hsome n); [by destruct (notes state !! k)| |by apply Hid].
      apply Hin. eauto.
    + rewrite Hnone; [by destruct (notes state !! k)|].
      rewrite Hkeys, Hk. by intros [? ?].
Qed.

Lemma setNotes_as_replay_witness :
  mutations.setNotes (initial_state None) (Res.notes bootstrap_reply)
  = apply_all (initial_state None) (Add <$> [note_served]).
Proof.
  apply (setNotes_as_replay (initial_state None) (<["n1" := note_served]> ∅)).
  - intros k n Hk. apply lookup_insert_Some in Hk as [[<- <-]|[_ Hk]].
    + reflexivity.
    + rewrite lookup_empty in Hk. discriminate Hk.
  - intros [n Hn]. vm_compute in Hn. discriminate Hn.
  - vm_compute. reflexivity.
Defined.

(** ** [loadDates] *)

(** One round of [loadDates]. *)
Lemma loadDates_unfold (depth : nat) (after : option Z) (w : World) :
  dispatch (S depth) (LoadDates after) w =
    match server w with
    | [] => (Waiting, log (EvDispatch (LoadDates after)) w)
    | reply :: rest =>
        let w1 :=
          {| store := store w; server := rest; user := user w;
             trace := trace w
               ++ [EvDispatch (LoadDates after);
                   EvRequest (loadDates_request after) reply] |} in
        match reply with
        | Rejected message => (Thrown message, w1)
        | Resolved res =>
            if Res.ok res then
              if length_is_zero (Res.notes res) then
                (Returned JsUndefined,
                 {| store := store w; server := rest; user := user w;
                    trace := trace w1 ++ [EvAlert "All notes loaded!"] |})
              else
                (Returned JsUndefined,
                 {| store := mutations.setNotes (store w) (Res.notes res);
                    server := rest; user := user w;
                    trace := trace w1
                               ++ [EvCommit (CSetNotes (Res.notes res))] |})
            else prompt_retry (dispatch depth (LoadDates after))
                   (Res.error res) w1
        end
    end.
Proof.
  cbn. destruct (server w) as [|[res|m] rest]; [done| |by unfold_run].
  cbn. destruct (Res.ok res); cbn.
  - by destruct (length_is_zero (Res.notes res)); unfold_run.
  - unfold prompt_retry. cbn.
    destruct (user w) as [|[] answers]; unfold_run; try done.
    by destruct (dispatch depth (LoadDates after) _) as [[] ?].
Qed.

(** Refusals that the user answers with retry lead, without any commit,
    to a fresh dispatch in the world where they have been consumed. *)
Lemma loadDates_retries (after : option Z) (fails : list Res.t)
    (depth : nat) (w : World) (srv : list Reply) (answers : list bool) :
  Forall (λ res, Res.ok res = false) fails →
  server w = (Resolved <$> fails) ++ srv →
  user w = replicate (length fails) true ++ answers →
  ∃ tr, commits_of tr = []
    ∧ dispatch (length fails + depth) (LoadDates after) w
      = dispatch depth (LoadDates after)
          {| store := store w; server := srv; user := answers;
             trace := trace w ++ tr |}.
Proof.
  revert w. induction fails as [|res fails IH]; intros w Hfails Hs Hu.
  - exists []. split; [done|]. rewrite app_nil_r. by destruct w; cbn in *; subst.
  - apply Forall_cons in Hfails as [Hres Hfails].
    cbn [length Nat.add].
    rewrite (loadDates_failed _ after w res _ true _ Hs Hres Hu).
    match goal with |- context [dispatch _ (LoadDates after) ?w1] =>
      destruct (IH w1) as (tr & Htr & ->); try done end.
    eexists. split; [|cbn; by rewrite <- app_assoc].
    by rewrite commits_of_app, Htr.
Qed.

(** X9. However many times [loadDates] was refused and retried, a reply
    that is accepted ends it with [undefined]: an empty array gives the
    alert and no commit, any other payload is merged in by one commit of
    [setNotes], exactly as if the first call had succeeded. *)
Theorem loadDates_success_after_retries
    (after : option Z) (fails : list Res.t) (good : Res.t)
    (depth : nat) (w : World) (rest : list Reply) (answers : list bool) :
  Forall (λ res, Res.ok res = false) fails → Res.ok good = true →
  server w = (Resolved <$> fails) ++ Resolved good :: rest →
  user w = replicate (length fails) true ++ answers →
  ∃ tr,
    dispatch (length fails + S depth) (LoadDates after) w
    = (Returned JsUndefined,
       {| store := if length_is_zero (Res.notes good) then store w
                   else mutations.setNotes (store w) (Res.notes good);
          server := rest; user := answers; trace := trace w ++ tr |})
    ∧ commits_of tr = (if length_is_zero (Res.notes good) then []
                       else [CSetNotes (Res.notes good)])
    ∧ last tr = Some (if length_is_zero (Res.notes good)
                      then EvAlert "All notes loaded!"
                      else EvCommit (CSetNotes (Res.notes good))).
Proof.
  intros Hfails Hgood Hs Hu.
  destruct (loadDates_retries after fails (S depth) w _ answers Hfails Hs Hu)
    as (tr & Htr & ->).
  rewrite loadDates_unfold. cbn. rewrite Hgood.
  destruct (length_is_zero (Res.notes good)).
  - eexists. split; [by rewrite <- !app_assoc|]. split.
    + by rewrite !commits_of_app, Htr.
    + by rewrite !app_assoc, last_snoc.
  - eexists. split; [by rewrite <- !app_assoc|]. split.
    + by rewrite !commits_of_app, Htr.
    + by rewrite !app_assoc, last_snoc.
Qed.

Lemma loadDates_success_after_retries_witness :
  let refusal := {| Res.ok := false; Res.error := "offline";
                    Res.notes := NotesArray []; Res.time := 0 |} in
  let w := {| store := initial_state None;
              server := [Resolved refusal; Resolved bootstrap_reply];
              user := [true]; trace := [] |} in
  ∃ tr,
    dispatch 2 (LoadDates None) w
    = (Returned JsUndefined,
       {| store := mutations.setNotes (initial_state None)
                     (Res.notes bootstrap_reply);
          server := []; user := []; trace := [] ++ tr |})
    ∧ commits_of tr = [CSetNotes (Res.notes bootstrap_reply)]
    ∧ last tr = Some (EvCommit (CSetNotes (Res.notes bootstrap_reply))).
Proof.
  intros refusal w.
  apply (loadDates_success_after_retries None [refusal] bootstrap_reply
           0 w [] []).
  - repeat constructor.
  - reflexivity.
  - reflexivity.
  - reflexivity.
Defined.

(** X10. A call that throws makes [loadDates] reject with the error,
    also after refusals that were retried: the user is not asked, and
    nothing is committed. *)
Theorem loadDates_rejects_when_call_throws
    (after : option Z) (fails : list Res.t) (message : string)
    (depth : nat) (w : World) (rest : list Reply) (answers : list bool) :
  Forall (λ res, Res.ok res = false) fails →
  server w = (Resolved <$> fails) ++ Rejected message :: rest →
  user w = replicate (length fails) true ++ answers →
  ∃ tr,
    dispatch (length fails + S depth) (LoadDates after) w
    = (Thrown message,
       {| store := store w; server := rest; user := answers;
          trace := trace w ++ tr |})
    ∧ commits_of tr = [].
Proof.
  intros Hfails Hs Hu.
  destruct (loadDates_retries after fails (S depth) w _ answers Hfails Hs Hu)
    as (tr & Htr & ->).
  rewrite loadDates_unfold. cbn.
  eexists. split; [by rewrite <- !app_assoc|].
  by rewrite !commits_of_app, Htr.
Qed.

Lemma loadDates_rejects_when_call_throws_witness :
  let w := {| store := initial_state None;
              server := [Rejected "Failed to fetch"];
              user := [false]; trace := [] |} in
  ∃ tr,
    dispatch 1 (LoadDates None) w
    = (Thrown "Failed to fetch",
       {| store := initial_state None; server := []; user := [false];
          trace := [] ++ tr |})
    ∧ commits_of tr = [].
Proof.
  intros w.
  apply (loadDates_rejects_when_call_throws None [] "Failed to fetch"
           0 w [] [false]).
  - constructor.
  - reflexivity.
  - reflexivity.
Defined.

(** What a run of [loadDates] can do to the store, whatever the replies
    and the answers: merge the notes of one accepted reply, or nothing. *)
Lemma loadDates_store (depth : nat) (after : option Z) (w : World) :
  let r := dispatch depth (LoadDates after) w in
  (store r.2 = store w ∧ r.1 ≠ Returned JsUndefined
   ∨ r.1 = Returned JsUndefined
     ∧ ∃ res, Resolved res ∈ server w ∧ Res.ok res = true
         ∧ store r.2 = (if length_is_zero (Res.notes res) then store w
                        else mutations.setNotes (store w) (Res.notes res))).
Proof.
  revert w. induction depth as [|depth IH]; intros w; [by left|].
  cbn zeta. rewrite loadDates_unfold.
  destruct (server w) as [|[res|m] rest] eqn:Hs; [by left| |by left].
  cbn zeta. destruct (Res.ok res) eqn:Hok.
  - right. destruct (length_is_zero (Res.notes res)) eqn:Hz;
      (split; [done|]); exists res; rewrite Hz; (split; [by left|done]).
  - unfold prompt_retry. cbn.
    destruct (user w) as [|[] answers]; [by left| |by left].
    match goal with |- context [dispatch depth (LoadDates after) ?w1] =>
      destruct (IH w1) as [[H1 H2]|[H1 (res' & Hin & Hok' & H2)]] end.
    + by left.
    + right. split; [done|]. exists res'. split; [by right|done].
Qed.

(** X11. Whatever the replies and the answers, a run of [loadDates]
    leaves [loading], [org] and the checkpoint alone and removes no key
    of the collection; unless it resolves with [undefined] it leaves the
    whole store as it was, and it never resolves with [true]. *)
Theorem loadDates_changes_only_notes (depth : nat) (after : option Z)
    (w : World) :
  let r := dispatch depth (LoadDates after) w in
  loading (store r.2) = loading (store w)
  ∧ org (store r.2) = org (store w)
  ∧ lastSync (store r.2) = lastSync (store w)
  ∧ dom (notes (store w)) ⊆ dom (notes (store r.2))
  ∧ (r.1 ≠ Returned JsUndefined → store r.2 = store w)
  ∧ r.1 ≠ Returned (JsBool true).
Proof.
  cbn zeta.
  assert (Htrue : (dispatch depth (LoadDates after) w).1
                  ≠ Returned (JsBool true)).
  { revert w. induction depth as [|depth IH]; intros w; [done|].
    rewrite loadDates_unfold.
    destruct (server w) as [|[res|m] rest]; [done| |done].
    cbn zeta. destruct (Res.ok res).
    - by destruct (length_is_zero (Res.notes res)).
    - unfold prompt_retry. cbn.
      destruct (user w) as [|[] answers]; [done|apply IH|done]. }
  destruct (loadDates_store depth after w)
    as [[-> Hne]|[Hret (res & _ & _ & ->)]].
  - done.
  - destruct (length_is_zero (Res.notes res)); [by rewrite Hret|].
    do 3 (split; [done|]). split; [|by rewrite Hret].
    cbn. rewrite dom_union_L. set_solver.
Qed.

Lemma loadDates_false_means_declined_witness :
  ∃ tr message,
    [EvDispatch (LoadDates None);
     EvRequest (loadDates_request None)
       (Resolved {| Res.ok := false; Res.error := "offline";
                    Res.notes := NotesArray []; Res.time := 0 |});
     EvConfirm (try_again "offline") false]
    = tr ++ [EvConfirm message false].
Proof.
  apply (loadDates_false_means_declined 1 None
           {| store := initial_state None;
              server := [Resolved {| Res.ok := false; Res.error := "offline";
                                     Res.notes := NotesArray [];
                                     Res.time := 0 |}];
              user := [false]; trace := [] |}
           {| store := initial_state None; server := []; user := [];
              trace := [EvDispatch (LoadDates None);
                        EvRequest (loadDates_request None)
                          (Resolved {| Res.ok := false; Res.error := "offline";
                                       Res.notes := NotesArray [];
                                       Res.time := 0 |});
                        EvConfirm (try_again "offline") false] |}).
  reflexivity.
Defined.

(** ** The body of [loadAllNotes] *)

(** X13. When the server refuses the bootstrap, or the call throws, the
    body of [loadAllNotes] throws the error; it has sent its one request,
    committed nothing, and notes and checkpoint are as they were. *)
Theorem loadAllNotes_throws_on_failure
    (d : Action → World → Outcome * World) (state : State) (w : World)
    (reply : Reply) (rest : list Reply) (message : string) :
  server w = reply :: rest →
  (reply = Rejected message
   ∨ ∃ res, reply = Resolved res ∧ Res.ok res = false
            ∧ Res.error res = message) →
  run d (actions.loadAllNotes state) w
  = (Thrown message,
     {| store := store w; server := rest; user := user w;
        trace := trace w ++ [EvRequest (loadAllNotes_request state) reply] |}).
Proof.
  intros Hs Hfail. rewrite loadAllNotes_body_run, Hs.
  destruct Hfail as [->|(res & -> & Hok & <-)]; [done|].
  cbn. by rewrite Hok.
Qed.

Lemma loadAllNotes_throws_on_failure_witness :
  let refusal := {| Res.ok := false; Res.error := "unauthorized";
                    Res.notes := NotesArray []; Res.time := 0 |} in
  run (dispatch 0) (actions.loadAllNotes (initial_state (Some "enkel")))
    {| store := initial_state (Some "enkel");
       server := [Resolved refusal]; user := []; trace := [] |}
  = (Thrown "unauthorized",
     {| store := initial_state (Some "enkel"); server := []; user := [];
        trace := [EvRequest {| method := GET; url := "/note/all/enkel" |}
                    (Resolved refusal)] |}).
Proof.
  intros refusal.
  apply (loadAllNotes_throws_on_failure (dispatch 0)
           (initial_state (Some "enkel"))
           {| store := initial_state (Some "enkel");
              server := [Resolved refusal]; user := []; trace := [] |}
           (Resolved refusal) [] "unauthorized").
  - reflexivity.
  - right. exists refusal. repeat split.
Defined.

(** ** The route guard, beyond the login redirect *)

(** X14. [requiredAuth] never sets two of its flags, and for every record
    of the route table it sets one. *)
Theorem requiredAuth_one_flag {Query : Type} (route : Route.t Query)
    (r : Required.t) :
  requiredAuth route = Some r →
  Required.public r && Required.public_only r = false
  ∧ Required.public r && Required.private r = false
  ∧ Required.public_only r && Required.private r = false
  ∧ (∀ first rest, Route.matched route = first :: rest → first ∈ routes →
       Required.public r || Required.public_only r || Required.private r
       = true).
Proof.
  unfold requiredAuth.
  destruct (Route.matched route) as [|first rest]; [done|].
  intros [= <-]. cbn.
  unfold AuthType.public, AuthType.public_only, AuthType.private.
  split; [|split; [|split]].
  - destruct (Z.eqb_spec (RouteRecord.Auth_requirements first) 1) as [->|];
      done.
  - destruct (Z.eqb_spec (RouteRecord.Auth_requirements first) 1) as [->|];
      done.
  - destruct (Z.eqb_spec (RouteRecord.Auth_requirements first) 2) as [->|];
      done.
  - intros first' rest' [= <- <-] Hin.
    unfold routes in Hin. cbn in Hin.
    repeat (apply elem_of_cons in Hin as [->|Hin]; [done|]).
    by apply elem_of_nil in Hin.
Qed.

Lemma requiredAuth_one_flag_witness :
  let r := {| Required.public := false; Required.public_only := false;
              Required.private := true |} in
  Required.public r && Required.public_only r = false
  ∧ Required.public r && Required.private r = false
  ∧ Required.public_only r && Required.private r = false
  ∧ (∀ first rest,
       Route.matched (target_route "view" tt) = first :: rest →
       first ∈ routes →
       Required.public r || Required.public_only r || Required.private r
       = true).
Proof.
  intros r.
  apply (requiredAuth_one_flag (target_route "view" tt) r).
  reflexivity.
Defined.

(** X15. The guard lets a navigation proceed exactly when the page may be
    shown: a private page to a signed-in user only, a public-only page to
    a signed-out user only, and to a signed-in user the new-user page if
    and only if the store holds no organization. *)
Theorem AuthChecker_continue_policy {Query User : Type}
    (JSON_stringify : string → Query → string)
    (currentUser : option User) (state : State) (to : Route.t Query)
    (first : RouteRecord.t) (rest : list RouteRecord.t) :
  Route.matched to = first :: rest →
  (AuthChecker JSON_stringify currentUser state to = Some NextContinue
   ↔ (RouteRecord.Auth_requirements first = AuthType.private →
        logged_in currentUser = true)
     ∧ (RouteRecord.Auth_requirements first = AuthType.public_only →
        logged_in currentUser = false)
     ∧ (logged_in currentUser = true →
        (name_is to "new-user" = true ↔ truthy_org (org state) = false))).
Proof.
  intros Hm. unfold AuthChecker, requiredAuth. rewrite Hm.
  cbn [Required.private Required.public_only].
  unfold AuthType.private, AuthType.public_only.
  destruct (Z.eqb_spec (RouteRecord.Auth_requirements first) 3) as [H3|H3];
    destruct (Z.eqb_spec (RouteRecord.Auth_requirements first) 2) as [H2|H2];
    destruct (logged_in currentUser), (name_is to "new-user"),
      (truthy_org (org state)); cbn;
    try (exfalso; lia);
    (split; [intros [=]; intuition (try done; try lia)
            |intros (Ha & Hb & Hc); try done;
             try (by specialize (Ha H3)); try (by specialize (Hb H2));
             try (destruct (Hc eq_refl) as [Hc1 Hc2];
                  by (specialize (Hc1 eq_refl) || specialize (Hc2 eq_refl)))]).
Qed.

Lemma AuthChecker_continue_policy_witness :
  AuthChecker (Query := unit) (User := string) (λ path _, path)
    (Some "jj") (initial_state (Some "enkel")) (target_route "view" tt)
  = Some NextContinue.
Proof.
  apply (AuthChecker_continue_policy (User := string) (λ path _, path)
           (Some "jj") (initial_state (Some "enkel")) (target_route "view" tt)
           {| RouteRecord.path := "/view"; RouteRecord.name := "view";
              RouteRecord.Auth_requirements := AuthType.private |} []).
  - reflexivity.
  - split; [reflexivity|]. split; [discriminate|].
    intros _. split; discriminate.
Defined.

(** The guard on the three routes that it redirects to. *)
Lemma AuthChecker_at_login {Query User : Type}
    (JSON_stringify : string → Query → string)
    (currentUser : option User) (state : State) (q : Query) :
  AuthChecker JSON_stringify currentUser state (target_route "login" q)
  = Some (if logged_in currentUser
          then NextRoute {| RouteTo.name := "home"; RouteTo.query := None |}
          else NextContinue).
Proof. by destruct currentUser. Qed.

Lemma AuthChecker_at_home {Query User : Type}
    (JSON_stringify : string → Query → string)
    (currentUser : option User) (state : State) (q : Query) :
  AuthChecker JSON_stringify currentUser state (target_route "home" q)
  = Some (if logged_in currentUser
          then if truthy_org (org state) then NextContinue
               else NextRoute {| RouteTo.name := "new-user";
                                 RouteTo.query := None |}
          else NextRoute {| RouteTo.name := "login"; RouteTo.query := None |}).
Proof.
  unfold AuthChecker.
  destruct currentUser, (truthy_org (org state)); vm_compute; reflexivity.
Qed.

Lemma AuthChecker_at_new_user {Query User : Type}
    (JSON_stringify : string → Query → string)
    (currentUser : option User) (state : State) (q : Query) :
  AuthChecker JSON_stringify currentUser state (target_route "new-user" q)
  = Some (if logged_in currentUser
          then if truthy_org (org state)
               then NextRoute {| RouteTo.name := "home"; RouteTo.query := None |}
               else NextContinue
          else NextRoute
                 {| RouteTo.name := "login";
                    RouteTo.query :=
                      Some {| redirect := JSON_stringify "/new" q |} |}).
Proof.
  unfold AuthChecker.
  destruct currentUser, (truthy_org (org state)); vm_compute; reflexivity.
Qed.

(** Where the guard redirects to, and for whom. *)
Lemma AuthChecker_redirect_cases {Query User : Type}
    (JSON_stringify : string → Query → string)
    (currentUser : option User) (state : State) (to : Route.t Query)
    (routeTo : RouteTo.t) :
  AuthChecker JSON_stringify currentUser state to = Some (NextRoute routeTo) →
  RouteTo.name routeTo = "login" ∧ logged_in currentUser = false
  ∨ RouteTo.name routeTo = "home" ∧ logged_in currentUser = true
  ∨ RouteTo.name routeTo = "new-user" ∧ logged_in currentUser = true
    ∧ truthy_org (org state) = false.
Proof.
  unfold AuthChecker, requiredAuth.
  destruct (Route.matched to) as [|first rest]; [done|].
  cbn [Required.private Required.public_only].
  destruct (RouteRecord.Auth_requirements first =? AuthType.private),
    (RouteRecord.Auth_requirements first =? AuthType.public_only),
    (logged_in currentUser), (name_is to "new-user"),
    (truthy_org (org state)); cbn [negb andb];
    intros [= <-]; cbn [RouteTo.name]; auto.
Qed.

(** X16. A redirect of the guard goes to the login, the home or the
    new-user route, and redirects come to rest: guarding the route that a
    redirect names, for the same user and store, lets the navigation
    proceed or redirects once more to a route on which it proceeds. *)
Theorem AuthChecker_redirects_settle {Query User : Type}
    (JSON_stringify : string → Query → string)
    (currentUser : option User) (state : State) (to : Route.t Query)
    (routeTo : RouteTo.t) (q1 q2 : Query) :
  AuthChecker JSON_stringify currentUser state to = Some (NextRoute routeTo) →
  RouteTo.name routeTo ∈ ["login"; "home"; "new-user"]
  ∧ match AuthChecker JSON_stringify currentUser state
            (target_route (RouteTo.name routeTo) q1) with
    | Some NextContinue => True
    | Some (NextRoute routeTo') =>
        AuthChecker JSON_stringify currentUser state
          (target_route (RouteTo.name routeTo') q2) = Some NextContinue
    | None => False
    end.
Proof.
  intros Hto.
  destruct (AuthChecker_redirect_cases _ _ _ _ _ Hto)
    as [[-> Hu]|[[-> Hu]|(-> & Hu & Ho)]].
  - split; [by left|]. by rewrite AuthChecker_at_login, Hu.
  - split; [right; by left|]. rewrite AuthChecker_at_home, Hu.
    destruct (truthy_org (org state)) eqn:Ho; [done|].
    cbn [RouteTo.name]. by rewrite AuthChecker_at_new_user, Hu, Ho.
  - split; [do 2 right; by left|].
    by rewrite AuthChecker_at_new_user, Hu, Ho.
Qed.

Lemma AuthChecker_redirects_settle_witness :
  "login" ∈ ["login"; "home"; "new-user"]
  ∧ match AuthChecker (User := string) (λ path _, path) None
            (initial_state None) (target_route "login" tt) with
    | Some NextContinue => True
    | Some (NextRoute routeTo') =>
        AuthChecker (User := string) (λ path _, path) None
          (initial_state None) (target_route (RouteTo.name routeTo') tt)
        = Some NextContinue
    | None => False
    end.
Proof.
  apply (AuthChecker_redirects_settle (User := string) (λ path _, path) None
           (initial_state None) (target_route "view" tt)
           {| RouteTo.name := "login";
              RouteTo.query := Some {| redirect := "/view" |} |} tt tt).
  reflexivity.
Defined.

(** ** Creating an organization *)

Lemma snapshot_empty_spec (db : OrgRoutes.Backend) (id : string) :
  OrgRoutes.snapshot_empty db id = true
  ↔ id ∉ OrgRoutes.Org.ID <$> OrgRoutes.orgs db.
Proof.
  unfold OrgRoutes.snapshot_empty. rewrite negb_true_iff.
  rewrite <- not_true_iff_false, existsb_exists. split.
  - intros Hno (o & -> & Ho)%list_elem_of_fmap. apply Hno. exists o.
    split; [by apply list_elem_of_In|apply String.eqb_refl].
  - intros Hno (o & Ho & Heq). apply Hno. apply String.eqb_eq in Heq as <-.
    apply list_elem_of_fmap. exists o. split; [done|by apply list_elem_of_In].
Qed.

(** X17. A request creates the organization exactly when the caller has
    no organization and the ID is free, whatever the ID looks like; then
    one document with that ID, the caller's email and the time is added
    and [setClaims] is called once, making the caller admin of it.  A
    caller with an organization is refused and a taken ID gets 400; both
    leave documents and claims as they are. *)
Theorem create_outcome (now : Z) (token : OrgRoutes.Token.t)
    (body : OrgRoutes.Body.t) (db : OrgRoutes.Backend) :
  let r := OrgRoutes.create now token body db in
  (r.1 = OrgRoutes.Status 200 None
   ↔ OrgRoutes.Token.org token = None
     ∧ OrgRoutes.Body.org body ∉ OrgRoutes.Org.ID <$> OrgRoutes.orgs db)
  ∧ (r.1 = OrgRoutes.Status 200 None →
     OrgRoutes.orgs r.2
     = OrgRoutes.orgs db
       ++ [{| OrgRoutes.Org.ID := OrgRoutes.Body.org body;
              OrgRoutes.Org.name := OrgRoutes.Body.name body;
              OrgRoutes.Org.createdBy := OrgRoutes.Token.email token;
              OrgRoutes.Org.time := now |}]
     ∧ OrgRoutes.setClaims_calls r.2
       = OrgRoutes.setClaims_calls db
         ++ [({| OrgRoutes.Claims.org := OrgRoutes.Body.org body;
                 OrgRoutes.Claims.admin := true |},
              OrgRoutes.Token.uid token)])
  ∧ (r.1 ≠ OrgRoutes.Status 200 None → r.2 = db)
  ∧ (r.1 = OrgRoutes.Refused ↔ is_Some (OrgRoutes.Token.org token))
  ∧ (r.1 = OrgRoutes.Status 400 (Some "Org ID taken")
     ↔ OrgRoutes.Token.org token = None
       ∧ OrgRoutes.Body.org body ∈ OrgRoutes.Org.ID <$> OrgRoutes.orgs db).
Proof.
  cbn zeta. unfold OrgRoutes.create.
  destruct (OrgRoutes.Token.org token) as [o|].
  { cbn. split; [split; [done|by intros [? _]]|].
    split; [done|]. split; [done|].
    split; [split; eauto|split; [done|by intros [? _]]]. }
  pose proof (snapshot_empty_spec db (OrgRoutes.Body.org body)) as Hspec.
  destruct (OrgRoutes.snapshot_empty db (OrgRoutes.Body.org body)); cbn.
  - assert (OrgRoutes.Body.org body
            ∉ OrgRoutes.Org.ID <$> OrgRoutes.orgs db) as Hfree
      by by apply Hspec.
    split; [done|]. split; [done|]. split; [done|].
    split; [split; [done|by intros [? [=]]]|].
    split; [done|]. by intros [_ ?].
  - assert (OrgRoutes.Body.org body
            ∈ OrgRoutes.Org.ID <$> OrgRoutes.orgs db) as Hin.
    { destruct (decide (OrgRoutes.Body.org body
                        ∈ OrgRoutes.Org.ID <$> OrgRoutes.orgs db))
        as [|Hout]; [done|].
      by apply Hspec in Hout. }
    split; [split; [done|by intros [_ ?]]|].
    split; [done|]. split; [done|].
    split; [split; [done|by intros [? [=]]]|done].
Qed.

(** X18. When requests are handled one after the other, documents are
    only ever added at the end of the collection, an ID that is taken
    stays taken, and if no two documents share an ID before, no two share
    one after. *)
Theorem serve_keeps_ids_unique (db : OrgRoutes.Backend)
    (rqs : list OrgRoutes.Request) :
  (OrgRoutes.orgs db) `prefix_of` (OrgRoutes.orgs (OrgRoutes.serve db rqs))
  ∧ (∀ id, OrgRoutes.snapshot_empty db id = false →
       OrgRoutes.snapshot_empty (OrgRoutes.serve db rqs) id = false)
  ∧ (NoDup (OrgRoutes.Org.ID <$> OrgRoutes.orgs db) →
     NoDup (OrgRoutes.Org.ID <$> OrgRoutes.orgs (OrgRoutes.serve db rqs))).
Proof.
  revert db. induction rqs as [|rq rqs IH]; intros db.
  { by split. }
  change (OrgRoutes.serve db (rq :: rqs))
    with (OrgRoutes.serve
            (OrgRoutes.create (OrgRoutes.now rq) (OrgRoutes.token rq)
               (OrgRoutes.body rq) db).2 rqs).
  set (db1 := (OrgRoutes.create (OrgRoutes.now rq) (OrgRoutes.token rq)
                 (OrgRoutes.body rq) db).2).
  destruct (IH db1) as (Hpre & Htaken & Hnd).
  assert (Hstep :
    db1 = db
    ∨ ((OrgRoutes.Body.org (OrgRoutes.body rq)
          ∉ OrgRoutes.Org.ID <$> OrgRoutes.orgs db)
       ∧ ∃ o, OrgRoutes.Org.ID o = OrgRoutes.Body.org (OrgRoutes.body rq)
              ∧ OrgRoutes.orgs db1 = OrgRoutes.orgs db ++ [o])).
  { unfold db1, OrgRoutes.create.
    destruct (OrgRoutes.Token.org (OrgRoutes.token rq)); [by left|].
    destruct (OrgRoutes.snapshot_empty db _) eqn:He; [|by left].
    right. split; [by apply snapshot_empty_spec|].
    cbn. eexists. split; [|reflexivity]. reflexivity. }
  destruct Hstep as [->|(Hfree & o & Ho & Hadd)]; [done|].
  split; [|split].
  - etrans; [|done]. rewrite Hadd. by apply prefix_app_r.
  - intros id Hid. apply Htaken.
    apply not_true_iff_false. rewrite snapshot_empty_spec, Hadd, fmap_app.
    apply not_true_iff_false in Hid. rewrite snapshot_empty_spec in Hid.
    intros Hno. apply Hid. intros Hin. apply Hno.
    apply elem_of_app. by left.
  - intros Hdb. apply Hnd. rewrite Hadd, fmap_app. apply NoDup_app.
    split; [done|]. split; [|apply NoDup_singleton].
    intros id Hin Hin'. cbn in Hin'. apply list_elem_of_singleton in Hin'.
    congruence.
Qed.

Lemma serve_keeps_ids_unique_witness :
  let jj := {| OrgRoutes.Token.uid := "u1"; OrgRoutes.Token.email := "jj@enkel.sg";
               OrgRoutes.Token.org := None |} in
  let rq := {| OrgRoutes.now := 1643184535; OrgRoutes.token := jj;
               OrgRoutes.body := {| OrgRoutes.Body.org := "enkel";
                                    OrgRoutes.Body.name := "Enkel Digital" |} |} in
  NoDup (OrgRoutes.Org.ID
           <$> OrgRoutes.orgs
                 (OrgRoutes.serve
                    {| OrgRoutes.orgs := []; OrgRoutes.setClaims_calls := [] |}
                    [rq; rq])).
Proof.
  intros jj rq.
  apply (serve_keeps_ids_unique
           {| OrgRoutes.orgs := []; OrgRoutes.setClaims_calls := [] |} [rq; rq]).
  apply NoDup_nil_2.
Defined.

(** ** The appointments store *)

Module AppointmentsFacts.
Import Appointments.

(** X19. [setAvailableDates] throws on a state in which the setter has
    not stored [datesAvailable]; otherwise it appends the dates after the
    ones held, in order, and leaves the other fields alone, so that a
    second commit of the same dates holds them twice. *)
Theorem setAvailableDates_appends (state : State) (dates : list Z) :
  match datesAvailable state with
  | None => mutations.setAvailableDates state dates = inl TypeError_push
  | Some old =>
      ∃ state',
        mutations.setAvailableDates state dates = inr state'
        ∧ datesAvailable state' = Some (old ++ dates)
        ∧ loading state' = loading state
        ∧ selectedTimeslot state' = selectedTimeslot state
        ∧ src state' = src state
        ∧ details state' = details state
        ∧ appointmentID state' = appointmentID state
        ∧ ∃ state'',
            mutations.setAvailableDates state' dates = inr state''
            ∧ datesAvailable state'' = Some (old ++ dates ++ dates)
  end.
Proof.
  unfold mutations.setAvailableDates.
  destruct (datesAvailable state) as [old|]; [|done].
  eexists. split; [done|]. cbn. do 6 (split; [done|]).
  eexists. split; [done|]. cbn. by rewrite <- app_assoc.
Qed.

(** Put a world reached by a run back in shape. *)
Ltac tidy := cbn; unfold log; cbn; rewrite <- ?app_assoc; cbn.

(** [confirm(...) && dispatch(a)] where it is returned from inside a
    [try]: the [try] catches nothing of it. *)
Lemma retry_not_caught (d : Action → World → Outcome * World)
    (message : string) (a : Action) (w : World)
    (handler : string → Prog) :
  settle (run d (TryCatch (retry message a) handler) w)
  = settle (run d (retry message a) w).
Proof.
  cbn. destruct (user w) as [|[] answers]; cbn; try done.
  by destruct (d a _) as [[] ?].
Qed.


Lemma reschedule_round (depth : nat) (w : World) :
  dispatch (S depth) Reschedule w =
    match server w with
    | [] => (Waiting, logged (EvDispatch Reschedule) w)
    | reply :: rest =>
        let w1 := sent Reschedule (reschedule_request (store w)) reply rest w in
        match reply with
        | Resolved res =>
            if Res.ok res then (Returned JsUndefined, w1)
            else prompt (dispatch depth Reschedule) (Res.error res) w1
        | Rejected message =>
            prompt (dispatch depth Reschedule) message
              (logged (EvConsoleError message) w1)
        end
    end.
Proof.
  unfold sent, logged, prompt, reschedule_request.
  cbn [dispatch action_body actions.reschedule run]. unfold log. cbn [server store user trace].
  destruct (server w) as [|[res|m] rest]; [by tidy| |].
  - destruct (Res.ok res); cbn [negb]; [by tidy|].
    cbn. destruct (user w) as [|[] answers]; tidy; try done.
    by destruct (dispatch depth Reschedule _) as [[] ?].
  - cbn. destruct (user w) as [|[] answers]; tidy; try done.
    by destruct (dispatch depth Reschedule _) as [[] ?].
Qed.

Lemma cancel_round (depth : nat) (id : string) (w : World) :
  dispatch (S depth) (Cancel id) w =
    match server w with
    | [] => (Waiting, logged (EvDispatch (Cancel id)) w)
    | reply :: rest =>
        let w1 := sent (Cancel id) (cancel_request id) reply rest w in
        match reply with
        | Resolved res =>
            if Res.ok res then (Returned JsUndefined, w1)
            else prompt (dispatch depth (Cancel id)) (Res.error res) w1
        | Rejected message => (Thrown message, w1)
        end
    end.
Proof.
  unfold sent, logged, prompt, cancel_request.
  cbn [dispatch action_body actions.cancel run]. unfold log. cbn [server store user trace].
  destruct (server w) as [|[res|m] rest]; [by tidy| |by tidy].
  destruct (Res.ok res); cbn [negb]; [by tidy|].
  cbn. destruct (user w) as [|[] answers]; tidy; try done.
  by destruct (dispatch depth (Cancel id) _) as [[] ?].
Qed.

Lemma loadDates_round (depth : nat) (after : option Z) (w : World) :
  dispatch (S depth) (LoadDates after) w =
    match server w with
    | [] => (Waiting, logged (EvDispatch (LoadDates after)) w)
    | reply :: rest =>
        let w1 := sent (LoadDates after) (loadDates_request after)
                    reply rest w in
        match reply with
        | Resolved res =>
            if Res.ok res then
              match Res.timeslots res with
              | [] =>
                  (Returned JsUndefined,
                   logged (EvAlert "Sorry but there are no more available dates!")
                     w1)
              | _ :: _ =>
                  let c := CSetAvailableDates (Res.timeslots res) in
                  match datesAvailable (store w) with
                  | None => (Thrown TypeError_push, logged (EvCommit c) w1)
                  | Some old =>
                      (Returned JsUndefined,
                       {| store := mutations.setter (store w)
                                     (SetDatesAvailable
                                        (old ++ Res.timeslots res));
                          server := rest; user := user w;
                          trace := trace w1 ++ [EvCommit c] |})
                  end
              end
            else prompt (dispatch depth (LoadDates after)) (Res.error res) w1
        | Rejected message => (Thrown message, w1)
        end
    end.
Proof.
  unfold sent, logged, prompt, loadDates_request.
  cbn [dispatch action_body actions.loadDates run]. unfold log. cbn [server store user trace].
  destruct (server w) as [|[res|m] rest]; [by tidy| |by tidy].
  destruct (Res.ok res); cbn [negb].
  - destruct (Res.timeslots res) as [|t ts] eqn:Hts; [by tidy|].
    rewrite bool_decide_eq_false_2 by done.
    cbn [run commit]. unfold mutations.setAvailableDates.
    cbn [store]. destruct (datesAvailable (store w)); by tidy.
  - cbn. destruct (user w) as [|[] answers]; tidy; try done.
    by destruct (dispatch depth (LoadDates after) _) as [[] ?].
Qed.

Lemma requests_of_app (tr1 tr2 : list Event) :
  requests_of (tr1 ++ tr2) = requests_of tr1 ++ requests_of tr2.
Proof. apply omap_app. Qed.



(** X21. [reschedule] never rejects either and never commits: whatever
    the replies and the answers the store is as it was, the result is
    [undefined] or [false], and every attempt sends the same request. *)
Theorem reschedule_outcome (depth : nat) (w : World) :
  let r := dispatch depth Reschedule w in
  store r.2 = store w
  ∧ (r.1 = Returned JsUndefined ∨ r.1 = Returned (JsBool false)
     ∨ r.1 = Waiting)
  ∧ ∃ tr, trace r.2 = trace w ++ tr
      ∧ Forall (λ rq, rq = reschedule_request (store w)) (requests_of tr)
      ∧ commits_of tr = [].
Proof.
  cbn zeta. revert w. induction depth as [|depth IH]; intros w.
  { split; [done|]. split; [auto|]. exists []. by rewrite app_nil_r. }
  rewrite reschedule_round. destruct (server w) as [|reply rest].
  { split; [done|]. split; [auto|]. eexists. split; [done|].
    split; [by repeat constructor|done]. }
  cbn zeta.
  assert (Hprompt : ∀ message pre,
    Forall (λ rq, rq = reschedule_request (store w)) (requests_of pre) →
    commits_of pre = [] →
    let w1 := {| store := store w; server := rest; user := user w;
                 trace := trace w ++ pre |} in
    let r := prompt (dispatch depth Reschedule) message w1 in
    store r.2 = store w
    ∧ (r.1 = Returned JsUndefined ∨ r.1 = Returned (JsBool false)
       ∨ r.1 = Waiting)
    ∧ ∃ tr, trace r.2 = trace w ++ tr
        ∧ Forall (λ rq, rq = reschedule_request (store w)) (requests_of tr)
        ∧ commits_of tr = []).
  { intros message pre Hpre Hc w1. unfold prompt, w1. cbn.
    destruct (user w) as [|[] answers]; cbn.
    - split; [done|]. split; [auto|]. by exists pre.
    - match goal with |- context [dispatch depth Reschedule ?w2] =>
        destruct (IH w2) as (Hstore & Hout & tr & Htr & Hrq & Hcs) end.
      cbn in Hstore, Htr, Hrq.
      split; [done|]. split; [done|].
      exists (pre ++ [EvConfirm (try_again message) true] ++ tr).
      split; [by rewrite Htr, <- !app_assoc|].
      unfold commits_of in *. rewrite !requests_of_app, !omap_app, Hc, Hcs.
      split; [|done]. cbn. by apply Forall_app.
    - split; [done|]. split; [auto|].
      exists (pre ++ [EvConfirm (try_again message) false]).
      split; [by rewrite <- app_assoc|].
      unfold commits_of in *. rewrite requests_of_app, omap_app, Hc.
      split; [|done]. cbn. by rewrite app_nil_r. }
  destruct reply as [res|m].
  - destruct (Res.ok res).
    + split; [done|]. split; [auto|]. eexists. split; [done|].
      split; [by repeat constructor|done].
    + apply (Hprompt (Res.error res)
               [EvDispatch Reschedule;
                EvRequest (reschedule_request (store w)) (Resolved res)]);
        [by repeat constructor|done].
  - unfold sent, logged. cbn. rewrite <- app_assoc.
    apply (Hprompt m
             ([EvDispatch Reschedule;
               EvRequest (reschedule_request (store w)) (Rejected m)]
              ++ [EvConsoleError m])); [by repeat constructor|done].
Qed.

(** X22. [cancel] commits nothing, so the store is as it was; it rejects
    only with the error of a call that threw, which it does not catch;
    and every attempt, retries included, asks to cancel the same
    appointment. *)
Theorem cancel_outcome (depth : nat) (id : string) (w : World) :
  let r := dispatch depth (Cancel id) w in
  store r.2 = store w
  ∧ (∀ message, r.1 = Thrown message → Rejected message ∈ server w)
  ∧ r.1 ≠ Returned (JsBool true)
  ∧ ∃ tr, trace r.2 = trace w ++ tr
      ∧ Forall (λ rq, rq = cancel_request id) (requests_of tr)
      ∧ commits_of tr = [].
Proof.
  cbn zeta. revert w. induction depth as [|depth IH]; intros w.
  { split; [done|]. split; [done|]. split; [done|].
    exists []. by rewrite app_nil_r. }
  rewrite cancel_round. destruct (server w) as [|reply rest].
  { split; [done|]. split; [done|]. split; [done|]. eexists.
    split; [done|]. split; [by repeat constructor|done]. }
  cbn zeta. destruct reply as [res|m].
  - destruct (Res.ok res).
    + split; [done|]. split; [done|]. split; [done|]. eexists.
      split; [done|]. split; [by repeat constructor|done].
    + unfold prompt, sent. cbn.
      destruct (user w) as [|[] answers]; cbn.
      * split; [done|]. split; [done|]. split; [done|]. eexists.
        split; [done|]. split; [by repeat constructor|done].
      * match goal with |- context [dispatch depth (Cancel id) ?w2] =>
          destruct (IH w2) as (Hstore & Hthrown & Htrue & tr & Htr & Hrq & Hcs)
        end.
        cbn in Hstore, Hthrown, Htr.
        split; [done|]. split; [intros message Hm; right; by apply Hthrown|].
        split; [done|]. eexists.
        split; [by rewrite Htr, <- !app_assoc|].
        unfold commits_of in *. rewrite !requests_of_app, !omap_app, Hcs.
        split; [|done]. cbn. by repeat constructor.
      * split; [done|]. split; [done|]. split; [done|]. eexists.
        split; [by rewrite <- app_assoc|].
        split; [by repeat constructor|done].
  - split; [done|]. split; [intros message [= ->]; by left|].
    split; [done|]. eexists.
    split; [done|]. split; [by repeat constructor|done].
Qed.

(** X23. A reply with dates makes [loadDates] of this store commit
    [setAvailableDates]: on a state in which [datesAvailable] was never
    stored the action rejects with the error of that mutation and the
    store is as it was; otherwise the dates of the reply are appended. *)
Theorem loadDates_appends_or_throws (depth : nat) (after : option Z)
    (w : World) (res : Res.t) (rest : list Reply) :
  server w = Resolved res :: rest → Res.ok res = true →
  Res.timeslots res ≠ [] →
  let r := dispatch (S depth) (LoadDates after) w in
  match datesAvailable (store w) with
  | None => r.1 = Thrown TypeError_push ∧ store r.2 = store w
  | Some old =>
      r.1 = Returned JsUndefined
      ∧ datesAvailable (store r.2) = Some (old ++ Res.timeslots res)
  end
  ∧ server r.2 = rest ∧ user r.2 = user w.
Proof.
  intros Hs Hok Hts. cbn zeta. rewrite loadDates_round, Hs. cbn zeta.
  rewrite Hok. destruct (Res.timeslots res) as [|t ts]; [done|].
  by destruct (datesAvailable (store w)).
Qed.

Lemma loadDates_appends_or_throws_witness :
  let reply := {| Res.ok := true; Res.error := "";
                  Res.timeslots := [1643184535]; Res.appointmentID := "" |} in
  let w := {| store := initial; server := [Resolved reply]; user := [];
              trace := [] |} in
  ((dispatch 1 (LoadDates None) w).1 = Thrown TypeError_push
   ∧ store (dispatch 1 (LoadDates None) w).2 = initial)
  ∧ server (dispatch 1 (LoadDates None) w).2 = []
  ∧ user (dispatch 1 (LoadDates None) w).2 = [].
Proof.
  intros reply w.
  apply (loadDates_appends_or_throws 0 None w reply []).
  - reflexivity.
  - reflexivity.
  - discriminate.
Defined.

(** X24. The body of the booking request holds the fields of [details];
    the selected timeslot goes under "time" and the source under "src"
    only where [details] has no field of that name and the value is
    defined. *)
Theorem book_data_fields (state : State) (k : string) :
  book_data state !! k
  = match default ∅ (details state) !! k with
    | Some v => Some v
    | None =>
        if decide (k = "time") then JNumber <$> selectedTimeslot state
        else if decide (k = "src") then JString <$> src state
        else None
    end.
Proof.
  unfold book_data. rewrite !lookup_union.
  destruct (selectedTimeslot state) as [t|], (src state) as [sr|]; cbn;
    repeat case_decide; subst;
    rewrite ?lookup_empty, ?lookup_singleton_eq, ?lookup_singleton_ne by done;
    by destruct (default ∅ (details state) !! _).
Qed.

End AppointmentsFacts.
